(** * Sliding puzzle core: a shallow embedding of [SlidingPuzzleGame]

    The development follows [sliding_puzzle_python.py]: Python lists are
    Rocq lists indexed by integers (with Python's negative indices and its
    [IndexError]), the game object is a record threaded through the
    methods, [for] loops with [return]/[break] are a loop combinator, and
    the ambient random source used by the shuffle is an explicit oracle. *)

From stdpp Require Import base numbers list.
From Stdlib Require Import ZArith Lia.

Local Open Scope Z_scope.

(** ** Python primitives *)

Module Py.

(** The only exception the modelled code can raise. *)
Inductive exn := IndexError.

Inductive result (A : Type) :=
| Ok (a : A)
| Raise (e : exn).
Arguments Ok {A} a.
Arguments Raise {A} e.

Definition bind {A B} (m : result A) (k : A -> result B) : result B :=
  match m with
  | Ok a => k a
  | Raise e => Raise e
  end.

(** [lst[i]] position: non-negative indices count from the front,
    negative ones from the back, anything else raises. *)
Definition norm_index (len i : Z) : result nat :=
  if (0 <=? i) && (i <? len) then Ok (Z.to_nat i)
  else if (- len <=? i) && (i <? 0) then Ok (Z.to_nat (len + i))
  else Raise IndexError.

Definition getitem {A} (l : list A) (i : Z) : result A :=
  bind (norm_index (Z.of_nat (length l)) i) (fun n =>
    match l !! n with
    | Some x => Ok x
    | None => Raise IndexError
    end).

Definition setitem {A} (l : list A) (i : Z) (v : A) : result (list A) :=
  bind (norm_index (Z.of_nat (length l)) i) (fun n => Ok (<[n := v]> l)).

(** [range(a, b)] *)
Definition range (a b : Z) : list Z := seqZ a (b - a).

(** A loop body either falls through to the next iteration with the
    loop-carried variables, or leaves the loop ([return], [break]). *)
Inductive flow (R S : Type) :=
| Next (s : S)
| Exit (r : R).
Arguments Next {R S} s.
Arguments Exit {R S} r.

Fixpoint for_each {A R S} (xs : list A)
    (body : A -> S -> result (flow R S)) (s : S) : result (flow R S) :=
  match xs with
  | [] => Ok (Next s)
  | x :: xs' =>
      bind (body x s) (fun f =>
        match f with
        | Next s' => for_each xs' body s'
        | Exit r => Ok (Exit r)
        end)
  end.

End Py.

Import Py.

Notation "x <- m ;; k" := (bind m (fun x => k))
  (at level 100, m at next level, right associativity).

(** ** Data model *)

(** The [Difficulty] enumeration and the board size each member stands
    for. *)
Inductive Difficulty := EASY | MEDIUM | HARD | EXPERT.

Definition value (d : Difficulty) : Z :=
  match d with
  | EASY => 3
  | MEDIUM => 4
  | HARD => 5
  | EXPERT => 6
  end.

(** [GameStats]: only the move counter is modelled; [start_time] and
    [elapsed_time] are wall-clock floats that no operation below reads. *)
Record GameStats := { moves : Z }.

Record SlidingPuzzleGame := {
  difficulty : Difficulty;
  size : Z;
  grid : list (list Z);
  blank_pos : Z * Z;
  stats : GameStats
}.

(** Assignments to one attribute of the object. *)
Definition with_grid (s : SlidingPuzzleGame) (g : list (list Z)) :=
  {| difficulty := difficulty s; size := size s; grid := g;
     blank_pos := blank_pos s; stats := stats s |}.

Definition with_blank_pos (s : SlidingPuzzleGame) (p : Z * Z) :=
  {| difficulty := difficulty s; size := size s; grid := grid s;
     blank_pos := p; stats := stats s |}.

Definition with_stats (s : SlidingPuzzleGame) (st : GameStats) :=
  {| difficulty := difficulty s; size := size s; grid := grid s;
     blank_pos := blank_pos s; stats := st |}.

(** [game.difficulty = d; game.size = d.value], as [change_difficulty]
    does before it regenerates. *)
Definition with_difficulty (s : SlidingPuzzleGame) (d : Difficulty) :=
  {| difficulty := d; size := value d; grid := grid s;
     blank_pos := blank_pos s; stats := stats s |}.

(** [g[r][c]] and [g[r][c] = v] *)
Definition grid_get (g : list (list Z)) (r c : Z) : result Z :=
  row <- getitem g r ;; getitem row c.

Definition grid_set (g : list (list Z)) (r c v : Z) : result (list (list Z)) :=
  row <- getitem g r ;;
  row' <- setitem row c v ;;
  setitem g r row'.

(** ** Operations *)

(** The outcome of [random.shuffle(directions)] at iteration [i] of the
    shuffle: the environment hands back the list in the order it chose.
    Nothing below restricts that choice, so every statement covers all 24
    orders at every iteration. *)
Definition rand := nat -> list (Z * Z) -> list (Z * Z).

Definition directions : list (Z * Z) := [(0, 1); (0, -1); (1, 0); (-1, 0)].

Definition in_bounds (n r c : Z) : bool :=
  (0 <=? r) && (r <? n) && (0 <=? c) && (c <? n).

Definition _find_blank_position (s : SlidingPuzzleGame) : result (Z * Z) :=
  f <- for_each (range 0 (size s)) (fun row (_ : unit) =>
         for_each (range 0 (size s)) (fun col (_ : unit) =>
           v <- grid_get (grid s) row col ;;
           if v =? 0 then Ok (Exit (row, col)) else Ok (Next tt)) tt) tt ;;
  match f with
  | Exit p => Ok p
  | Next _ => Ok (0, 0)
  end.

(** One attempt of the inner [for dr, dc in directions] loop. *)
Definition shuffle_try (n : Z) (d : Z * Z) (st : list (list Z) * Z * Z)
  : result (flow (list (list Z) * Z * Z) (list (list Z) * Z * Z)) :=
  let '(shuffled, blank_row, blank_col) := st in
  let '(dr, dc) := d in
  let new_row := blank_row + dr in
  let new_col := blank_col + dc in
  if in_bounds n new_row new_col then
    v <- grid_get shuffled new_row new_col ;;
    shuffled <- grid_set shuffled blank_row blank_col v ;;
    shuffled <- grid_set shuffled new_row new_col 0 ;;
    Ok (Exit (shuffled, new_row, new_col))
  else Ok (Next st).

Definition _shuffle_puzzle (s : SlidingPuzzleGame) (rnd : rand)
  : result (list (list Z)) :=
  let shuffled := grid s in
  let '(blank_row, blank_col) := blank_pos s in
  f <- for_each (seq 0 (Z.to_nat (size s * size s * 10)))
         (fun i st =>
            f <- for_each (rnd i directions) (shuffle_try (size s)) st ;;
            match f with
            | Exit st' => Ok (@Next unit _ st')
            | Next st' => Ok (Next st')
            end)
         (shuffled, blank_row, blank_col) ;;
  match f with
  | Next (shuffled, _, _) => Ok shuffled
  | Exit _ => Ok shuffled
  end.

(** [[num for row in self.grid for num in row if num != 0]] *)
Definition flat_puzzle (g : list (list Z)) : list Z :=
  filter (fun num => num <> 0) (concat g).

Definition count_inversions (flat_puzzle : list Z) : result Z :=
  let len := Z.of_nat (length flat_puzzle) in
  f <- for_each (range 0 len) (fun i inversions =>
         for_each (range (i + 1) len) (fun j inversions =>
           a <- getitem flat_puzzle i ;;
           b <- getitem flat_puzzle j ;;
           if a >? b then Ok (@Next unit _ (inversions + 1))
           else Ok (Next inversions)) inversions) 0 ;;
  match f with
  | Next inversions => Ok inversions
  | Exit _ => Ok 0
  end.

Definition _check_solvability (s : SlidingPuzzleGame) : result bool :=
  inversions <- count_inversions (flat_puzzle (grid s)) ;;
  if size s mod 2 =? 1 then Ok (inversions mod 2 =? 0)
  else
    p <- _find_blank_position s ;;
    let blank_row := fst p in
    let blank_from_bottom := size s - blank_row in
    Ok ((inversions + blank_from_bottom) mod 2 =? 1).

(** The scan that fills [non_blank_tiles] in [_make_solvable]. *)
Definition collect_non_blank (s : SlidingPuzzleGame) : result (list (Z * Z)) :=
  f <- for_each (range 0 (size s)) (fun row non_blank_tiles =>
         for_each (range 0 (size s)) (fun col non_blank_tiles =>
           v <- grid_get (grid s) row col ;;
           if negb (v =? 0)
           then Ok (@Next unit _ (non_blank_tiles ++ [(row, col)]))
           else Ok (Next non_blank_tiles)) non_blank_tiles) [] ;;
  match f with
  | Next non_blank_tiles => Ok non_blank_tiles
  | Exit _ => Ok []
  end.

Definition _make_solvable (s : SlidingPuzzleGame) : result SlidingPuzzleGame :=
  non_blank_tiles <- collect_non_blank s ;;
  match non_blank_tiles with
  | (r1, c1) :: (r2, c2) :: _ =>
      x2 <- grid_get (grid s) r2 c2 ;;
      x1 <- grid_get (grid s) r1 c1 ;;
      g <- grid_set (grid s) r1 c1 x2 ;;
      g <- grid_set g r2 c2 x1 ;;
      Ok (with_grid s g)
  | _ => Ok s
  end.

(** [[[row * size + col + 1 for col in range(size)] for row in range(size)]] *)
Definition solved_grid (n : Z) : list (list Z) :=
  (fun row => (fun col => row * n + col + 1) <$> range 0 n) <$> range 0 n.

Definition generate_solvable_puzzle (s : SlidingPuzzleGame) (rnd : rand)
  : result SlidingPuzzleGame :=
  let s := with_grid s (solved_grid (size s)) in
  g <- grid_set (grid s) (size s - 1) (size s - 1) 0 ;;
  let s := with_grid s g in
  let s := with_blank_pos s (size s - 1, size s - 1) in
  g <- _shuffle_puzzle s rnd ;;
  let s := with_grid s g in
  p <- _find_blank_position s ;;
  let s := with_blank_pos s p in
  ok <- _check_solvability s ;;
  s <- (if negb ok then
          s <- _make_solvable s ;;
          p <- _find_blank_position s ;;
          Ok (with_blank_pos s p)
        else Ok s) ;;
  Ok (with_stats s {| moves := 0 |}).

(** The attributes [__init__] sets before it generates, for a board size
    [n]. *)
Definition blank_game (d : Difficulty) (n : Z) : SlidingPuzzleGame :=
  {| difficulty := d; size := n; grid := []; blank_pos := (0, 0);
     stats := {| moves := 0 |} |}.

(** [SlidingPuzzleGame(difficulty)]: the size is [difficulty.value]. *)
Definition init (d : Difficulty) (rnd : rand) : result SlidingPuzzleGame :=
  generate_solvable_puzzle (blank_game d (value d)) rnd.

Definition can_move_tile (s : SlidingPuzzleGame) (row col : Z) : result bool :=
  if negb ((0 <=? row) && (row <? size s) && (0 <=? col) && (col <? size s))
  then Ok false
  else
    v <- grid_get (grid s) row col ;;
    if v =? 0 then Ok false
    else
      let '(blank_row, blank_col) := blank_pos s in
      let row_diff := Z.abs (row - blank_row) in
      let col_diff := Z.abs (col - blank_col) in
      Ok ((row_diff =? 1) && (col_diff =? 0) || (row_diff =? 0) && (col_diff =? 1)).

Definition move_tile (s : SlidingPuzzleGame) (row col : Z)
  : result (SlidingPuzzleGame * bool) :=
  ok <- can_move_tile s row col ;;
  if negb ok then Ok (s, false)
  else
    v <- grid_get (grid s) row col ;;
    g <- grid_set (grid s) (fst (blank_pos s)) (snd (blank_pos s)) v ;;
    g <- grid_set g row col 0 ;;
    let s := with_grid s g in
    let s := with_blank_pos s (row, col) in
    let s := with_stats s {| moves := moves (stats s) + 1 |} in
    Ok (s, true).

Definition is_solved (s : SlidingPuzzleGame) : result bool :=
  f <- for_each (range 0 (size s)) (fun row expected =>
         for_each (range 0 (size s)) (fun col expected =>
           if (row =? size s - 1) && (col =? size s - 1) then
             v <- grid_get (grid s) row col ;;
             Ok (Exit (v =? 0))
           else
             v <- grid_get (grid s) row col ;;
             if negb (v =? expected) then Ok (Exit false)
             else Ok (Next (expected + 1))) expected) 1 ;;
  match f with
  | Exit b => Ok b
  | Next _ => Ok true
  end.

(** * Vocabulary of the properties *)

(** The grid has [n] rows of [n] cells. *)
Definition wf (n : Z) (g : list (list Z)) : Prop :=
  length g = Z.to_nat n /\ Forall (fun row => length row = Z.to_nat n) g.

(** The position lies on an [n]x[n] board. *)
Definition inb (n : Z) (p : Z * Z) : Prop :=
  0 <= p.1 < n /\ 0 <= p.2 < n.

(** The value read at a position; on a well-formed grid and a position of
    the board the read succeeds ([grid_get_wf]) and the default is unused. *)
Definition cell (g : list (list Z)) (p : Z * Z) : Z :=
  match grid_get g p.1 p.2 with
  | Ok v => v
  | Raise _ => 0
  end.

(** Row-major enumeration of the positions of an [n]x[n] board. *)
Definition positions (n : Z) : list (Z * Z) :=
  range 0 n ≫= (fun r => (fun c => (r, c)) <$> range 0 n).

(** The transposition of two positions. *)
Definition transp (p1 p2 q : Z * Z) : Z * Z :=
  if decide (q = p1) then p2 else if decide (q = p2) then p1 else q.

(** The value the solved board holds at a position, counting from 1. *)
Definition rank (n : Z) (p : Z * Z) : Z := p.1 * n + p.2 + 1.

(** Board, blank position and size as the data model requires them: an
    [n]x[n] grid holding each of 0 .. n*n-1 once, with the cached blank
    position pointing at the 0. *)
Record Inv (s : SlidingPuzzleGame) : Prop := {
  inv_size : size s = value (difficulty s);
  inv_wf : wf (size s) (grid s);
  inv_perm : concat (grid s) ≡ₚ seqZ 0 (size s * size s);
  inv_blank_inb : inb (size s) (blank_pos s);
  inv_blank : grid_get (grid s) (blank_pos s).1 (blank_pos s).2 = Ok 0
}.

(** A loop invariant [I] on the carried variables, and [J] on the value a
    loop is left with. *)
Definition flow_inv {R S : Type} (I : S -> Prop) (J : R -> Prop)
    (f : flow R S) : Prop :=
  match f with
  | Next s => I s
  | Exit r => J r
  end.

(** Invariant of the shuffle loops on (shuffled, blank_row, blank_col): the
    grid is a rearrangement of the initial one and the tracked position is
    a blank cell of the board. *)
Definition shuffle_inv (n : Z) (g0 : list (list Z))
    (st : list (list Z) * Z * Z) : Prop :=
  wf n st.1.1 /\ concat st.1.1 ≡ₚ concat g0 /\
  inb n (st.1.2, st.2) /\ cell st.1.1 (st.1.2, st.2) = 0.

(** First position, in row-major order, whose cell is 0. *)
Definition first_blank (n : Z) (g : list (list Z)) : option (Z * Z) :=
  head (filter (fun p => cell g p = 0) (positions n)).

(** Number of inversions of a list: for each element, the later elements
    that are smaller. *)
Fixpoint inversions (l : list Z) : Z :=
  match l with
  | [] => 0
  | a :: t => Z.of_nat (length (filter (fun b => b < a) t)) + inversions t
  end.

(** Body of the inner loop of [count_inversions]. *)
Definition count_step (l : list Z) (i j inv : Z) : result (flow unit Z) :=
  a <- getitem l i ;;
  b <- getitem l j ;;
  if a >? b then Ok (Next (inv + 1)) else Ok (Next inv).

(** Positions of the tiles, in row-major order. *)
Definition non_blank (n : Z) (g : list (list Z)) : list (Z * Z) :=
  filter (fun p => cell g p <> 0) (positions n).

(** What [_check_solvability] computes on a well-formed board. *)
Definition parity_test (n : Z) (g : list (list Z)) : bool :=
  if n mod 2 =? 1 then inversions (flat_puzzle g) mod 2 =? 0
  else (inversions (flat_puzzle g)
        + (n - (default (0, 0) (first_blank n g)).1)) mod 2 =? 1.

(** Manhattan distance exactly 1. *)
Definition adjacent (p q : Z * Z) : Prop :=
  Z.abs (p.1 - q.1) + Z.abs (p.2 - q.2) = 1.

#[global] Instance adjacent_dec p q : Decision (adjacent p q).
Proof. unfold adjacent. apply _. Defined.

#[global] Instance inb_dec n p : Decision (inb n p).
Proof. unfold inb. apply _. Defined.

(** A game object with the given difficulty, board, blank position and
    move count. *)
Definition game (d : Difficulty) (g : list (list Z)) (p : Z * Z) (m : Z)
  : SlidingPuzzleGame :=
  {| difficulty := d; size := value d; grid := g; blank_pos := p;
     stats := {| moves := m |} |}.

(** The boards of the test script. *)
Definition board_solved := [[1; 2; 3]; [4; 5; 6]; [7; 8; 0]].
Definition board_swapped := [[1; 2; 3]; [4; 5; 6]; [8; 7; 0]].
Definition board_centre := [[1; 2; 3]; [4; 0; 5]; [6; 7; 8]].
Definition board_unsolved := [[1; 2; 3]; [4; 5; 6]; [7; 0; 8]].

(** What the solved board holds at a position: 0 in the last cell, the
    1-based row-major position elsewhere. *)
Definition target (n : Z) (p : Z * Z) : Z :=
  if decide (p = (n - 1, n - 1)) then 0 else p.1 * n + p.2 + 1.

(** Body of the loops of [is_solved], at one position. *)
Definition scan_step (n : Z) (g : list (list Z)) (p : Z * Z) (expected : Z)
  : result (flow bool Z) :=
  if (p.1 =? n - 1) && (p.2 =? n - 1) then
    v <- grid_get g p.1 p.2 ;;
    Ok (Exit (v =? 0))
  else
    v <- grid_get g p.1 p.2 ;;
    if negb (v =? expected) then Ok (Exit false)
    else Ok (Next (expected + 1)).

(** The pair (i, j) is an inversion of [l]: i comes before j and holds the
    larger value. *)
Definition inverted (l : list Z) (ij : nat * nat) : Prop :=
  (ij.1 < ij.2)%nat /\
  match l !! ij.1, l !! ij.2 with
  | Some a, Some b => b < a
  | _, _ => False
  end.

#[global] Instance inverted_dec l ij : Decision (inverted l ij).
Proof.
  unfold inverted. destruct (l !! ij.1), (l !! ij.2); apply _.
Defined.

(** All pairs (i, j) with i among [rows] and j among [cols]. *)
Definition index_pairs (rows cols : list nat) : list (nat * nat) :=
  rows ≫= (fun i => (fun j => (i, j)) <$> cols).

(** All inversions of [l]: the pairs i < j of positions of the flattened
    order with value[i] > value[j]. *)
Definition inversion_pairs (l : list Z) : list (nat * nat) :=
  filter (inverted l) (index_pairs (seq 0 (length l)) (seq 0 (length l))).

(** [P] holds of the element at index [j]. *)
Definition at_index (P : Z -> Prop) (t : list Z) (j : nat) : Prop :=
  match t !! j with
  | Some b => P b
  | None => False
  end.

#[global] Instance at_index_dec P `{!forall b, Decision (P b)} t j :
  Decision (at_index P t j).
Proof. unfold at_index. destruct (t !! j); apply _. Defined.

Definition board_solved4 :=
  [[1; 2; 3; 4]; [5; 6; 7; 8]; [9; 10; 11; 12]; [13; 14; 15; 0]].

(** The calls a client makes on a game object: regenerate at the current
    size, switch to another difficulty and regenerate, or try a move. *)
Inductive call :=
| NewGame (rnd : rand)
| ChangeDifficulty (d : Difficulty) (rnd : rand)
| MoveTile (row col : Z).

(** One call, and a sequence of calls; an exception ends the run. *)
Definition step (s : SlidingPuzzleGame) (c : call) : result SlidingPuzzleGame :=
  match c with
  | NewGame rnd => generate_solvable_puzzle s rnd
  | ChangeDifficulty d rnd => generate_solvable_puzzle (with_difficulty s d) rnd
  | MoveTile row col => r <- move_tile s row col ;; Ok r.1
  end.

Fixpoint run (s : SlidingPuzzleGame) (cs : list call) : result SlidingPuzzleGame :=
  match cs with
  | [] => Ok s
  | c :: cs' => s' <- step s c ;; run s' cs'
  end.

(** How many cells of the board hold [v]. *)
Definition occurrences (v : Z) (g : list (list Z)) : nat :=
  length (filter (fun x => x = v) (concat g)).

(** A random source that behaves as [random.shuffle] does: what it hands
    back is a rearrangement of the list it was given. *)
Definition fair (rnd : rand) : Prop := forall i l, rnd i l ≡ₚ l.

(** Invariant of the outer shuffle loop at iteration [i], under a fair
    source: the loop invariant of [shuffle_inv], the answer of the parity
    test, and the parity of the distance walked by the blank. *)
Definition shuffle_inv_fair (n : Z) (g0 : list (list Z)) (b0 : Z * Z)
    (i : nat) (st : list (list Z) * Z * Z) : Prop :=
  shuffle_inv n g0 st /\
  parity_test n st.1.1 = parity_test n g0 /\
  (st.1.2 + st.2 + Z.of_nat i) mod 2 = (b0.1 + b0.2) mod 2.

(** The source that leaves every list in the order it was given. *)
Definition identity_order : rand := fun _ l => l.

(** The cells next to [b], in the order of [directions]. *)
Definition neighbours (b : Z * Z) : list (Z * Z) :=
  (fun d => (b.1 + d.1, b.2 + d.2)) <$> directions.

(** Results of the operations can be compared when their values can. *)
#[global] Instance exn_eq_dec : EqDecision exn.
Proof. solve_decision. Defined.

#[global] Instance result_eq_dec {A : Type} `{EqDecision A} :
  EqDecision (result A).
Proof. solve_decision. Defined.

(** The tiles [can_move_tile] accepts, in row-major order: the buttons that
    [create_tile_buttons] highlights. *)
Definition movable_tiles (s : SlidingPuzzleGame) : list (Z * Z) :=
  filter (fun p => can_move_tile s p.1 p.2 = Ok true) (positions (size s)).

(** ** The callbacks of the window, on the game object *)

#[global] Instance Difficulty_eq_dec : EqDecision Difficulty.
Proof. solve_decision. Defined.

(** [list(Difficulty)]: the members in the order of their definition. *)
Definition difficulties : list Difficulty := [EASY; MEDIUM; HARD; EXPERT].

(** [l.index(x)]: the index of the first element equal to [x]; [None]
    stands for the ValueError Python raises when there is none. *)
Definition list_index (x : Difficulty) (l : list Difficulty) : option nat :=
  fst <$> list_find (fun y => y = x) l.

(** [SlidingPuzzleGUI.change_difficulty]: what it does to the game object
    (the labels and buttons it redraws afterwards hold no game state). *)
Definition change_difficulty (s : SlidingPuzzleGame) (rnd : rand)
  : option (result SlidingPuzzleGame) :=
  match list_index (difficulty s) difficulties with
  | None => None
  | Some current_index =>
      let next_index :=
        (Z.of_nat current_index + 1) mod Z.of_nat (length difficulties) in
      Some (d <- getitem difficulties next_index ;;
            generate_solvable_puzzle (with_difficulty s d) rnd)
  end.

(** [SlidingPuzzleGUI.on_tile_click]: the game object after the click and
    whether [show_win_message] is called; [update_display], called in
    between, redraws the window and writes no attribute of the game. *)
Definition on_tile_click (s : SlidingPuzzleGame) (row col : Z)
  : result (SlidingPuzzleGame * bool) :=
  r <- move_tile s row col ;;
  if r.2 then
    solved <- is_solved r.1 ;;
    Ok (r.1, solved)
  else Ok (r.1, false).

(** ** Construction for a board size given as a number *)



(** ** The reference functions of the test script

    [test_implementation.py] carries its own copies of three operations,
    working on a bare grid with [size = len(puzzle)]; they look for the
    blank with a double loop whose [break] leaves the inner loop only. *)

Module TestImplementation.

Definition check_solvability (puzzle : list (list Z)) : result bool :=
  let size := Z.of_nat (length puzzle) in
  inversions <- count_inversions (flat_puzzle puzzle) ;;
  if size mod 2 =? 1 then Ok (inversions mod 2 =? 0)
  else
    f <- for_each (range 0 size) (fun row blank_row =>
           f <- for_each (range 0 size) (fun col blank_row =>
                  v <- grid_get puzzle row col ;;
                  if v =? 0 then Ok (Exit row) else Ok (Next blank_row))
                  blank_row ;;
           match f with
           | Exit blank_row => Ok (@Next unit _ blank_row)
           | Next blank_row => Ok (Next blank_row)
           end) 0 ;;
    let blank_row := match f with Next r => r | Exit _ => 0 end in
    let blank_from_bottom := size - blank_row in
    Ok ((inversions + blank_from_bottom) mod 2 =? 1).

Definition can_move_tile (puzzle : list (list Z)) (row col : Z) : result bool :=
  let size := Z.of_nat (length puzzle) in
  if (row <? 0) || (row >=? size) || (col <? 0) || (col >=? size) then Ok false
  else
    v <- grid_get puzzle row col ;;
    if v =? 0 then Ok false
    else
      f <- for_each (range 0 size) (fun r blank =>
             f <- for_each (range 0 size) (fun c blank =>
                    v <- grid_get puzzle r c ;;
                    if v =? 0 then Ok (Exit (r, c)) else Ok (Next blank))
                    blank ;;
             match f with
             | Exit blank => Ok (@Next unit _ blank)
             | Next blank => Ok (Next blank)
             end) (0, 0) ;;
      let '(blank_row, blank_col) :=
        match f with Next b => b | Exit _ => (0, 0) end in
      let row_diff := Z.abs (row - blank_row) in
      let col_diff := Z.abs (col - blank_col) in
      Ok ((row_diff =? 1) && (col_diff =? 0) || (row_diff =? 0) && (col_diff =? 1)).

End TestImplementation.

(** What the blank scans of the test script compute: for each row in turn,
    the first 0 of the row, if there is one, replaces what was found so
    far. *)
Definition last_blank {S : Type} (n : Z) (g : list (list Z))
    (mark : Z * Z -> S) (st : S) (rows : list Z) : S :=
  foldl (fun st row =>
           match head (filter (fun c => cell g (row, c) = 0) (range 0 n)) with
           | Some c => mark (row, c)
           | None => st
           end) st rows.

(** Every 0 of the board lies in one and the same row. *)
Definition blanks_in_one_row (n : Z) (g : list (list Z)) : Prop :=
  forall p q, inb n p -> inb n q -> cell g p = 0 -> cell g q = 0 -> p.1 = q.1.

(** * Lemmas *)

(** ** Grids seen as functions from positions to cells *)

Section Indexing.
Context {A : Type}.
Implicit Types l : list A.

Lemma getitem_lookup l i x :
  0 <= i -> l !! Z.to_nat i = Some x -> getitem l i = Ok x.
Proof.
  intros Hi Hl. unfold getitem, norm_index.
  pose proof (lookup_lt_Some _ _ _ Hl) as Hlt.
  destruct (0 <=? i) eqn:E1; [|lia].
  destruct (i <? Z.of_nat (length l)) eqn:E2; [|lia].
  simpl. by rewrite Hl.
Qed.

Lemma setitem_lookup l i v :
  0 <= i < Z.of_nat (length l) -> setitem l i v = Ok (<[Z.to_nat i := v]> l).
Proof.
  intros Hi. unfold setitem, norm_index.
  destruct (0 <=? i) eqn:E1; [|lia].
  destruct (i <? Z.of_nat (length l)) eqn:E2; [|lia].
  done.
Qed.
End Indexing.

Lemma wf_row n g r :
  wf n g -> 0 <= r < n ->
  exists row, g !! Z.to_nat r = Some row /\ length row = Z.to_nat n.
Proof.
  intros [Hlen Hrows] Hr.
  destruct (lookup_lt_is_Some_2 g (Z.to_nat r)) as [row Hrow]; [lia|].
  exists row. split; [done|].
  by eapply (proj1 (Forall_lookup _ _) Hrows).
Qed.

Lemma grid_get_wf n g p :
  wf n g -> inb n p -> grid_get g p.1 p.2 = Ok (cell g p).
Proof.
  intros Hwf [Hr Hc]. destruct (wf_row n g p.1 Hwf Hr) as (row & Hrow & Hlen).
  destruct (lookup_lt_is_Some_2 row (Z.to_nat p.2)) as [v Hv]; [lia|].
  unfold cell, grid_get.
  rewrite (getitem_lookup g p.1 row) by (done || lia). simpl.
  by rewrite (getitem_lookup row p.2 v) by (done || lia).
Qed.

Lemma grid_set_wf n g p v :
  wf n g -> inb n p ->
  exists g', grid_set g p.1 p.2 v = Ok g' /\ wf n g' /\
    forall q, inb n q -> cell g' q = if decide (q = p) then v else cell g q.
Proof.
  intros Hwf [Hr Hc]. destruct (wf_row n g p.1 Hwf Hr) as (row & Hrow & Hlen).
  pose proof Hwf as [Hlg Hrows].
  exists (<[Z.to_nat p.1 := <[Z.to_nat p.2 := v]> row]> g). split; [|split].
  - unfold grid_set. rewrite (getitem_lookup g p.1 row) by (done || lia). simpl.
    rewrite setitem_lookup by lia. simpl. rewrite setitem_lookup by lia. done.
  - split; [by rewrite length_insert|].
    apply Forall_insert; [done|]. by rewrite length_insert.
  - intros q [Hqr Hqc].
    destruct (wf_row n g q.1 Hwf Hqr) as (rowq & Hrowq & Hlenq).
    destruct (lookup_lt_is_Some_2 rowq (Z.to_nat q.2)) as [w Hw]; [lia|].
    assert (cell g q = w) as ->.
    { unfold cell, grid_get.
      rewrite (getitem_lookup g q.1 rowq) by (done || lia). simpl.
      by rewrite (getitem_lookup rowq q.2 w) by (done || lia). }
    unfold cell, grid_get.
    destruct (decide (q.1 = p.1)) as [E1|N1].
    + rewrite E1 in *. assert (rowq = row) as -> by congruence.
      rewrite (getitem_lookup _ p.1 (<[Z.to_nat p.2 := v]> row));
        [|lia|by rewrite list_lookup_insert_eq by lia]. simpl.
      destruct (decide (q.2 = p.2)) as [E2|N2].
      * rewrite E2. rewrite (getitem_lookup _ p.2 v);
          [|lia|by rewrite list_lookup_insert_eq by lia].
        rewrite decide_True; [done|]. destruct q, p; simpl in *; congruence.
      * rewrite (getitem_lookup _ q.2 w);
          [|lia|by rewrite list_lookup_insert_ne by lia].
        rewrite decide_False; [done|]. intros ->. done.
    + rewrite (getitem_lookup _ q.1 rowq);
        [|lia|by rewrite list_lookup_insert_ne by lia]. simpl.
      rewrite (getitem_lookup rowq q.2 w) by (done || lia).
      rewrite decide_False; [done|]. intros ->. done.
Qed.

Lemma range_lookup a b i :
  (i < Z.to_nat (b - a))%nat -> range a b !! i = Some (a + Z.of_nat i).
Proof. intros Hi. unfold range. apply lookup_seqZ_lt. lia. Qed.

Lemma range_length a b : length (range a b) = Z.to_nat (b - a).
Proof. unfold range. apply length_seqZ. Qed.

Lemma elem_of_range a b x : x ∈ range a b <-> a <= x < b.
Proof. unfold range. rewrite elem_of_seqZ. lia. Qed.

Lemma elem_of_positions n p : p ∈ positions n <-> inb n p.
Proof.
  unfold positions, inb. rewrite list_elem_of_bind. split.
  - intros (r & Hp & Hr). apply list_elem_of_fmap in Hp as (c & -> & Hc).
    apply elem_of_range in Hr, Hc. simpl. lia.
  - intros [Hr Hc]. exists p.1. split; [|apply elem_of_range; lia].
    apply list_elem_of_fmap. exists p.2. split; [by destruct p|].
    apply elem_of_range; lia.
Qed.

Lemma NoDup_positions n : NoDup (positions n).
Proof.
  unfold positions. apply NoDup_bind.
  - intros r1 r2 p _ _ H1 H2.
    apply list_elem_of_fmap in H1 as (c1 & -> & _).
    apply list_elem_of_fmap in H2 as (c2 & E & _). congruence.
  - intros r _. apply NoDup_fmap_2; [|apply NoDup_seqZ].
    intros c1 c2 E. congruence.
  - apply NoDup_seqZ.
Qed.

(** A well-formed grid is the table of its cells. *)
Lemma grid_tabulate n g :
  wf n g ->
  g = (fun r => (fun c => cell g (r, c)) <$> range 0 n) <$> range 0 n.
Proof.
  intros Hwf. pose proof Hwf as [Hlen Hrows].
  apply (list_eq_same_length _ _ (Z.to_nat n)); [|done|].
  { rewrite length_fmap, range_length. lia. }
  intros i row row' Hi Hrow Hrow'.
  rewrite list_lookup_fmap, range_lookup in Hrow' by lia.
  simpl in Hrow'. rewrite Z.add_0_l in Hrow'. injection Hrow' as <-.
  assert (length row = Z.to_nat n) as Hlr
    by (by eapply (proj1 (Forall_lookup _ _) Hrows)).
  apply (list_eq_same_length _ _ (Z.to_nat n)); [|done|].
  { rewrite length_fmap, range_length. lia. }
  intros j v v' Hj Hv Hv'.
  rewrite list_lookup_fmap, range_lookup in Hv' by lia.
  simpl in Hv'. rewrite Z.add_0_l in Hv'. injection Hv' as <-.
  unfold cell, grid_get. simpl.
  rewrite (getitem_lookup g _ row); [|lia|by rewrite Nat2Z.id]. simpl.
  rewrite (getitem_lookup row _ v); [done|lia|by rewrite Nat2Z.id].
Qed.

Lemma concat_table {B} (f : Z * Z -> B) (rows cols : list Z) :
  concat ((fun r => (fun c => f (r, c)) <$> cols) <$> rows)
  = f <$> (rows ≫= (fun r => (fun c => (r, c)) <$> cols)).
Proof.
  induction rows as [|r rows IH]; [done|].
  rewrite fmap_cons, bind_cons, fmap_app. simpl. rewrite IH. f_equal.
  by rewrite <- list_fmap_compose.
Qed.

Lemma concat_cells n g : wf n g -> concat g = cell g <$> positions n.
Proof.
  intros Hwf. rewrite (grid_tabulate n g Hwf) at 1. apply concat_table.
Qed.

Lemma wf_ext n g g' :
  wf n g -> wf n g' -> (forall p, inb n p -> cell g' p = cell g p) -> g' = g.
Proof.
  intros Hwf Hwf' Hcells.
  rewrite (grid_tabulate n g Hwf), (grid_tabulate n g' Hwf').
  apply list_fmap_ext. intros i r Hr. apply list_fmap_ext. intros j c Hc.
  apply list_elem_of_lookup_2, elem_of_range in Hr, Hc.
  apply Hcells. split; simpl; lia.
Qed.

(** ** Loops *)

Section Loops.
Context {A R S : Type}.
Implicit Types body : A -> S -> result (flow R S).

Lemma for_each_cons_next x xs body s s' :
  body x s = Ok (Next s') -> for_each (x :: xs) body s = for_each xs body s'.
Proof. intros H. simpl. by rewrite H. Qed.

Lemma for_each_cons_exit x xs body s r :
  body x s = Ok (Exit r) -> for_each (x :: xs) body s = Ok (Exit r).
Proof. intros H. simpl. by rewrite H. Qed.

Lemma for_each_app xs ys body s :
  for_each (xs ++ ys) body s =
  bind (for_each xs body s) (fun f =>
    match f with
    | Next s' => for_each ys body s'
    | Exit r => Ok (Exit r)
    end).
Proof.
  revert s. induction xs as [|x xs IH]; intros s; simpl; [done|].
  destruct (body x s) as [[s'|r]|e]; simpl; [apply IH|done|done].
Qed.

Lemma for_each_fmap {B} (f : B -> A) (zs : list B) body s :
  for_each (f <$> zs) body s = for_each zs (fun z => body (f z)) s.
Proof.
  revert s. induction zs as [|z zs IH]; intros s; simpl; [done|].
  destruct (body (f z) s) as [[s'|r]|e]; simpl; [apply IH|done|done].
Qed.

Lemma for_each_bind {B} (f : B -> list A) (zs : list B) body s :
  for_each (zs ≫= f) body s =
  for_each zs (fun z s => for_each (f z) body s) s.
Proof.
  revert s. induction zs as [|z zs IH]; intros s; [done|].
  rewrite bind_cons, for_each_app. simpl.
  destruct (for_each (f z) body s) as [[s'|r]|e]; simpl; [apply IH|done|done].
Qed.

Lemma for_each_ext xs body body' s :
  (forall x s, x ∈ xs -> body x s = body' x s) ->
  for_each xs body s = for_each xs body' s.
Proof.
  revert s. induction xs as [|x xs IH]; intros s Hb; simpl; [done|].
  rewrite <- Hb by left.
  destruct (body x s) as [[s'|r]|e]; simpl; [|done|done].
  apply IH. intros; apply Hb. by right.
Qed.
End Loops.

(** Two nested [for row in range(n): for col in range(n)] loops run their
    body over the positions in row-major order. *)
Lemma for_each_positions {R S} n (body : Z * Z -> S -> result (flow R S)) s :
  for_each (range 0 n) (fun row s =>
    for_each (range 0 n) (fun col s => body (row, col) s) s) s
  = for_each (positions n) body s.
Proof.
  unfold positions. rewrite for_each_bind.
  apply for_each_ext. intros r s' _. by rewrite for_each_fmap.
Qed.

(** ** Exchanging two cells *)

Lemma transp_invol p1 p2 q : transp p1 p2 (transp p1 p2 q) = q.
Proof. unfold transp. repeat case_decide; congruence. Qed.

Lemma transp_inb n p1 p2 q :
  inb n p1 -> inb n p2 -> inb n q -> inb n (transp p1 p2 q).
Proof. intros. unfold transp. by repeat case_decide. Qed.

Lemma transp_positions n p1 p2 :
  inb n p1 -> inb n p2 -> transp p1 p2 <$> positions n ≡ₚ positions n.
Proof.
  intros H1 H2. apply NoDup_Permutation.
  - apply NoDup_fmap_2_strong; [|apply NoDup_positions].
    intros x y _ _ E. by rewrite <- (transp_invol p1 p2 x), E, transp_invol.
  - apply NoDup_positions.
  - intros q. rewrite list_elem_of_fmap. setoid_rewrite elem_of_positions. split.
    + intros (x & -> & Hx). by apply transp_inb.
    + intros Hq. exists (transp p1 p2 q).
      split; [by rewrite transp_invol|by apply transp_inb].
Qed.

Lemma cells_transp_perm n g g' p1 p2 :
  wf n g -> wf n g' -> inb n p1 -> inb n p2 ->
  (forall q, inb n q -> cell g' q = cell g (transp p1 p2 q)) ->
  concat g' ≡ₚ concat g.
Proof.
  intros Hwf Hwf' H1 H2 Hcells.
  rewrite (concat_cells n g Hwf), (concat_cells n g' Hwf').
  rewrite <- (transp_positions n p1 p2 H1 H2) at 2.
  rewrite <- list_fmap_compose.
  erewrite list_fmap_ext; [done|].
  intros i q Hq. apply Hcells, elem_of_positions. by eapply list_elem_of_lookup_2.
Qed.

Lemma fmap_eq_pointwise {A B} (f g : A -> B) (l : list A) x :
  f <$> l = g <$> l -> x ∈ l -> f x = g x.
Proof.
  intros E Hx. apply list_elem_of_lookup in Hx as [i Hi].
  apply (f_equal (fun k => k !! i)) in E.
  rewrite !list_lookup_fmap, Hi in E. simpl in E. congruence.
Qed.

(** ** The canonical solved board *)

Lemma rank_rows n (k : nat) :
  0 <= n ->
  rank n <$> (seqZ 0 (Z.of_nat k) ≫= (fun r => (fun c => (r, c)) <$> range 0 n))
  = seqZ 1 (Z.of_nat k * n).
Proof.
  intros Hn. induction k as [|k IH]; [done|].
  rewrite seqZ_S, bind_app, fmap_app, IH. simpl.
  rewrite app_nil_r, <- list_fmap_compose.
  replace (Z.of_nat (S k) * n) with (Z.of_nat k * n + n) by lia.
  rewrite seqZ_app by lia. f_equal.
  unfold range. rewrite Z.sub_0_r, Z.add_0_l.
  transitivity (Z.add (1 + Z.of_nat k * n) <$> seqZ 0 n);
    [|by rewrite fmap_add_seqZ, Z.add_0_r].
  apply list_fmap_ext. intros i c _. unfold rank. simpl. lia.
Qed.

Lemma rank_positions n : 0 <= n -> rank n <$> positions n = seqZ 1 (n * n).
Proof.
  intros Hn. pose proof (rank_rows n (Z.to_nat n) Hn) as H.
  rewrite Z2Nat.id in H by done.
  unfold positions, range in *. rewrite Z.sub_0_r in *. done.
Qed.

Lemma rank_last n p :
  inb n p -> rank n p = n * n <-> p = (n - 1, n - 1).
Proof.
  unfold rank. intros [H1 H2]. split.
  - intros E. assert (p.1 = n - 1) by nia. assert (p.2 = n - 1) by nia.
    destruct p; simpl in *; congruence.
  - intros ->. simpl. lia.
Qed.

Lemma wf_solved_grid n : 0 <= n -> wf n (solved_grid n).
Proof.
  intros Hn. unfold solved_grid. split.
  - rewrite length_fmap, range_length. lia.
  - apply Forall_fmap, Forall_forall. intros r _. simpl.
    rewrite length_fmap, range_length. lia.
Qed.

Lemma cell_solved_grid n p :
  0 <= n -> inb n p -> cell (solved_grid n) p = rank n p.
Proof.
  intros Hn Hp. apply (fmap_eq_pointwise _ _ (positions n));
    [|by apply elem_of_positions].
  rewrite <- concat_cells by by apply wf_solved_grid.
  apply (concat_table (rank n)).
Qed.

(** ** The state invariant *)

Lemma value_range d : 3 <= value d <= 6.
Proof. destruct d; simpl; lia. Qed.

Lemma in_bounds_inb n r c : in_bounds n r c = true <-> inb n (r, c).
Proof. unfold in_bounds, inb. simpl. lia. Qed.

Lemma cell_get n g p v :
  wf n g -> inb n p -> grid_get g p.1 p.2 = Ok v <-> cell g p = v.
Proof.
  intros Hwf Hp. rewrite (grid_get_wf n g p Hwf Hp). split; congruence.
Qed.

Section LoopInvariant.
Context {A R S : Type} (I : S -> Prop) (J : R -> Prop).

Lemma for_each_inv xs (body : A -> S -> result (flow R S)) s :
  I s ->
  (forall x s, x ∈ xs -> I s -> exists f, body x s = Ok f /\ flow_inv I J f) ->
  exists f, for_each xs body s = Ok f /\ flow_inv I J f.
Proof.
  revert s. induction xs as [|x xs IH]; intros s Hs Hbody; simpl.
  - by exists (Next s).
  - destruct (Hbody x s) as ([s'|r] & -> & Hf); [by left|done| |]; simpl.
    + apply IH; [done|]. intros; apply Hbody; [by right|done].
    + by exists (Exit r).
Qed.
End LoopInvariant.

(** ** The shuffle *)

Lemma shuffle_try_inv n g0 d st :
  shuffle_inv n g0 st ->
  exists f, shuffle_try n d st = Ok f /\
    flow_inv (shuffle_inv n g0) (shuffle_inv n g0) f.
Proof.
  destruct st as [[g br] bc], d as [dr dc].
  intros (Hwf & Hperm & Hb & H0). simpl in *. unfold shuffle_try.
  destruct (in_bounds n (br + dr) (bc + dc)) eqn:Hin; [|by eexists (Next _)].
  apply in_bounds_inb in Hin.
  set (new := (br + dr, bc + dc)) in *.
  rewrite (grid_get_wf n g new Hwf Hin : grid_get g (br + dr) (bc + dc) = _).
  simpl.
  destruct (grid_set_wf n g (br, bc) (cell g new) Hwf Hb)
    as (g1 & Hg1 & Hwf1 & Hc1).
  simpl in Hg1. rewrite Hg1. simpl.
  destruct (grid_set_wf n g1 new 0 Hwf1 Hin) as (g2 & Hg2 & Hwf2 & Hc2).
  simpl in Hg2. rewrite Hg2.
  simpl. eexists (Exit _). split; [done|].
  split; [done|]. split; [|split; [done|]]; simpl.
  - rewrite <- Hperm. apply (cells_transp_perm n g g2 (br, bc) new); try done.
    intros q Hq. rewrite Hc2, Hc1 by done. unfold transp.
    repeat case_decide; congruence.
  - rewrite Hc2 by done. by rewrite decide_True.
Qed.

Lemma shuffle_puzzle_inv s rnd :
  wf (size s) (grid s) -> inb (size s) (blank_pos s) ->
  cell (grid s) (blank_pos s) = 0 ->
  exists g, _shuffle_puzzle s rnd = Ok g /\ wf (size s) g /\
    concat g ≡ₚ concat (grid s).
Proof.
  intros Hwf Hb H0. unfold _shuffle_puzzle.
  destruct (blank_pos s) as [br bc] eqn:Ebp.
  edestruct (for_each_inv (A := nat) (R := unit)
               (shuffle_inv (size s) (grid s)) (fun _ => False))
    as (f & -> & Hf); [| |].
  - by split_and!.
  - intros i st _ Hst. simpl.
    destruct (for_each_inv (shuffle_inv (size s) (grid s))
                (shuffle_inv (size s) (grid s)) (rnd i directions)
                (shuffle_try (size s)) st Hst) as ([st'|st'] & -> & Hf').
    + intros; by apply shuffle_try_inv.
    + by exists (Next st').
    + by exists (Next st').
  - destruct f as [[[g br'] bc']|[]]; [|done]. simpl.
    exists g. destruct Hf as (? & ? & _). done.
Qed.

(** ** Locating the blank *)

Lemma find_blank_loop n g ps :
  wf n g -> (forall p, p ∈ ps -> inb n p) ->
  for_each ps (fun p (_ : unit) =>
    v <- grid_get g p.1 p.2 ;;
    if v =? 0 then Ok (Exit p) else Ok (Next tt)) tt
  = Ok (match head (filter (fun p => cell g p = 0) ps) with
        | Some p => Exit p
        | None => Next tt
        end).
Proof.
  intros Hwf. induction ps as [|p ps IH]; intros Hps; [done|]. simpl.
  rewrite (grid_get_wf n g p) by (done || apply Hps; left). simpl.
  destruct (cell g p =? 0) eqn:E; simpl.
  - rewrite filter_cons_True by lia. done.
  - rewrite filter_cons_False by lia. apply IH. intros; apply Hps. by right.
Qed.

Lemma find_blank_position_spec s :
  wf (size s) (grid s) ->
  _find_blank_position s
  = Ok (default (0, 0) (first_blank (size s) (grid s))).
Proof.
  intros Hwf. unfold _find_blank_position, first_blank.
  pose (B := fun (p : Z * Z) (_ : unit) =>
    v <- grid_get (grid s) p.1 p.2 ;;
    if v =? 0 then Ok (@Exit _ unit p) else Ok (Next tt)).
  rewrite (for_each_ext (range 0 (size s)) _ (fun row u =>
    for_each (range 0 (size s)) (fun col u => B (row, col) u) u))
    by (by intros ? [] _).
  rewrite (for_each_positions (size s) B). unfold B.
  rewrite (find_blank_loop (size s)); [|done|by intros; apply elem_of_positions].
  simpl. by destruct (head _).
Qed.

Lemma first_blank_unique n g b :
  inb n b -> cell g b = 0 ->
  (forall q, inb n q -> cell g q = 0 -> q = b) ->
  first_blank n g = Some b.
Proof.
  intros Hb H0 Huniq. unfold first_blank.
  destruct (filter _ _) as [|p l] eqn:E; simpl.
  - assert (b ∈ filter (fun p => cell g p = 0) (positions n)) as Hin
      by (apply list_elem_of_filter; split; [done|by apply elem_of_positions]).
    rewrite E in Hin. by apply elem_of_nil in Hin.
  - assert (p ∈ filter (fun p => cell g p = 0) (positions n)) as Hin
      by (rewrite E; left).
    apply list_elem_of_filter in Hin as [Hp0 Hp].
    f_equal. apply Huniq; [by apply elem_of_positions|done].
Qed.

Lemma cell_inj n g p q :
  wf n g -> NoDup (concat g) -> inb n p -> inb n q ->
  cell g p = cell g q -> p = q.
Proof.
  intros Hwf Hnd Hp Hq E. rewrite (concat_cells n g Hwf) in Hnd.
  apply elem_of_positions, list_elem_of_lookup in Hp as [i Hi].
  apply elem_of_positions, list_elem_of_lookup in Hq as [j Hj].
  assert (i = j) as ->; [|congruence].
  apply (proj1 (NoDup_alt _) Hnd i j (cell g p)).
  - by rewrite list_lookup_fmap, Hi.
  - by rewrite list_lookup_fmap, Hj, E.
Qed.

Lemma perm_NoDup n g : concat g ≡ₚ seqZ 0 (n * n) -> NoDup (concat g).
Proof. intros ->. apply NoDup_seqZ. Qed.

(** When the board holds each value once and [b] is a blank, the scan
    finds [b]. *)
Lemma find_blank_position_perm s b :
  wf (size s) (grid s) -> NoDup (concat (grid s)) ->
  inb (size s) b -> cell (grid s) b = 0 ->
  _find_blank_position s = Ok b.
Proof.
  intros Hwf Hnd Hb H0. rewrite find_blank_position_spec by done.
  rewrite (first_blank_unique _ _ b); [done..|].
  intros q Hq Hq0. apply (cell_inj (size s) (grid s)); congruence.
Qed.

(** ** Counting inversions *)

Section CountInversions.
Variable l : list Z.

Lemma count_inner i a t (j0 : nat) acc :
  0 <= i -> l !! Z.to_nat i = Some a -> drop j0 l = t ->
  for_each (seqZ (Z.of_nat j0) (Z.of_nat (length t))) (count_step l i) acc
  = Ok (Next (acc + Z.of_nat (length (filter (fun b => b < a) t)))).
Proof.
  intros Hi Ha. revert j0 acc. induction t as [|b t IH]; intros j0 acc Hd.
  - simpl. by rewrite Z.add_0_r.
  - assert (l !! j0 = Some b) as Hb.
    { rewrite <- (Nat.add_0_r j0), <- lookup_drop, Hd. done. }
    assert (drop (S j0) l = t) as Hd'.
    { rewrite (drop_S _ _ _ Hb) in Hd. congruence. }
    rewrite seqZ_cons by (simpl length; lia).
    replace (Z.succ (Z.of_nat j0)) with (Z.of_nat (S j0)) by lia.
    replace (Z.pred (Z.of_nat (length (b :: t)))) with (Z.of_nat (length t))
      by (simpl length; lia).
    assert (count_step l i (Z.of_nat j0) acc
            = Ok (Next (if a >? b then acc + 1 else acc))) as Hstep.
    { unfold count_step. rewrite (getitem_lookup l i a Hi Ha). simpl.
      rewrite (getitem_lookup l (Z.of_nat j0) b)
        by (lia || by rewrite Nat2Z.id).
      simpl. by destruct (a >? b). }
    rewrite (for_each_cons_next _ _ _ _ _ Hstep), IH by done.
    destruct (a >? b) eqn:E.
    + rewrite filter_cons_True by lia. simpl length. do 2 f_equal. lia.
    + rewrite filter_cons_False by lia. done.
Qed.

Lemma count_outer t (i0 : nat) acc :
  drop i0 l = t ->
  for_each (seqZ (Z.of_nat i0) (Z.of_nat (length t)))
    (fun i inv => for_each (range (i + 1) (Z.of_nat (length l))) (count_step l i) inv)
    acc
  = Ok (Next (acc + inversions t)).
Proof.
  revert i0 acc. induction t as [|a t IH]; intros i0 acc Hd.
  - simpl. by rewrite Z.add_0_r.
  - assert (l !! i0 = Some a) as Ha.
    { rewrite <- (Nat.add_0_r i0), <- lookup_drop, Hd. done. }
    assert (drop (S i0) l = t) as Hd'.
    { rewrite (drop_S _ _ _ Ha) in Hd. congruence. }
    assert (length l = (S i0 + length t)%nat) as Hlen.
    { rewrite <- Hd', length_drop. apply lookup_lt_Some in Ha. lia. }
    rewrite seqZ_cons by (simpl length; lia).
    replace (Z.succ (Z.of_nat i0)) with (Z.of_nat (S i0)) by lia.
    replace (Z.pred (Z.of_nat (length (a :: t)))) with (Z.of_nat (length t))
      by (simpl length; lia).
    rewrite (for_each_cons_next _ _ _ _
               (acc + Z.of_nat (length (filter (fun b => b < a) t)))).
    + rewrite (IH (S i0)) by done. simpl inversions. by rewrite Z.add_assoc.
    + unfold range.
      replace (Z.of_nat (length l) - (Z.of_nat i0 + 1))
        with (Z.of_nat (length t)) by lia.
      replace (Z.of_nat i0 + 1) with (Z.of_nat (S i0)) by lia.
      apply (count_inner (Z.of_nat i0) a t (S i0));
        [lia|by rewrite Nat2Z.id|done].
Qed.

Lemma count_inversions_spec : count_inversions l = Ok (inversions l).
Proof.
  unfold count_inversions.
  assert (range 0 (Z.of_nat (length l))
          = seqZ (Z.of_nat 0) (Z.of_nat (length l))) as ->
    by (unfold range; f_equal; lia).
  etransitivity;
    [apply (f_equal (fun m => bind m _)); exact (count_outer l 0%nat 0 eq_refl)|].
  done.
Qed.
End CountInversions.

(** ** Filters over positions and cells *)

Section Filters.
Context {A B : Type}.

Lemma filter_fmap (f : A -> B) (P : B -> Prop) `{!forall y, Decision (P y)}
    (l : list A) :
  filter P (f <$> l) = f <$> filter (fun x => P (f x)) l.
Proof.
  induction l as [|x l IH]; [done|]. rewrite fmap_cons, !filter_cons.
  simpl. destruct (decide (P (f x))); by rewrite IH.
Qed.

Lemma filter_ext_in (P Q : A -> Prop) `{!forall x, Decision (P x)}
    `{!forall x, Decision (Q x)} (l : list A) :
  (forall x, x ∈ l -> P x <-> Q x) -> filter P l = filter Q l.
Proof.
  induction l as [|x l IH]; intros HPQ; [done|]. rewrite !filter_cons.
  assert (filter P l = filter Q l) as ->
    by (apply IH; intros; apply HPQ; by right).
  pose proof (HPQ x (list_elem_of_here x l)) as Hx.
  destruct (decide (P x)), (decide (Q x)); tauto || done.
Qed.

Lemma filter_all (P : A -> Prop) `{!forall x, Decision (P x)} (l : list A) :
  (forall x, x ∈ l -> P x) -> filter P l = l.
Proof.
  induction l as [|x l IH]; intros HP; [done|].
  rewrite filter_cons_True by (apply HP; left).
  f_equal. apply IH. intros; apply HP. by right.
Qed.
End Filters.

Lemma flat_puzzle_cells n g :
  wf n g -> flat_puzzle g = cell g <$> non_blank n g.
Proof.
  intros Hwf. unfold flat_puzzle, non_blank.
  by rewrite (concat_cells n g Hwf), filter_fmap.
Qed.

Lemma elem_of_non_blank n g p :
  p ∈ non_blank n g <-> cell g p <> 0 /\ inb n p.
Proof. unfold non_blank. by rewrite list_elem_of_filter, elem_of_positions. Qed.

Lemma NoDup_non_blank n g : NoDup (non_blank n g).
Proof. apply NoDup_filter, NoDup_positions. Qed.

Lemma collect_loop n g ps acc :
  wf n g -> (forall p, p ∈ ps -> inb n p) ->
  for_each ps (fun p non_blank_tiles =>
    v <- grid_get g p.1 p.2 ;;
    if negb (v =? 0) then Ok (@Next unit _ (non_blank_tiles ++ [p]))
    else Ok (Next non_blank_tiles)) acc
  = Ok (Next (acc ++ filter (fun p => cell g p <> 0) ps)).
Proof.
  intros Hwf. revert acc. induction ps as [|p ps IH]; intros acc Hps.
  - simpl. by rewrite app_nil_r.
  - simpl. rewrite (grid_get_wf n g p) by (done || apply Hps; left). simpl.
    destruct (cell g p =? 0) eqn:E; simpl.
    + rewrite filter_cons_False by lia. apply IH. intros; apply Hps. by right.
    + rewrite filter_cons_True by lia. rewrite IH by (intros; apply Hps; by right).
      by rewrite <- app_assoc.
Qed.

Lemma collect_non_blank_spec s :
  wf (size s) (grid s) ->
  collect_non_blank s = Ok (non_blank (size s) (grid s)).
Proof.
  intros Hwf. unfold collect_non_blank, non_blank.
  pose (B := fun (p : Z * Z) (non_blank_tiles : list (Z * Z)) =>
    v <- grid_get (grid s) p.1 p.2 ;;
    if negb (v =? 0) then Ok (@Next unit _ (non_blank_tiles ++ [p]))
    else Ok (Next non_blank_tiles)).
  rewrite (for_each_positions (size s) B). unfold B.
  rewrite (collect_loop (size s)); [done|done|by intros; apply elem_of_positions].
Qed.

(** ** The repair step *)

Lemma make_solvable_spec s p1 p2 rest :
  wf (size s) (grid s) ->
  non_blank (size s) (grid s) = p1 :: p2 :: rest ->
  exists g', _make_solvable s = Ok (with_grid s g') /\ wf (size s) g' /\
    forall q, inb (size s) q -> cell g' q = cell (grid s) (transp p1 p2 q).
Proof.
  intros Hwf Hnb. unfold _make_solvable.
  rewrite collect_non_blank_spec, Hnb by done. simpl.
  assert (p1 ∈ non_blank (size s) (grid s)) as H1 by (rewrite Hnb; left).
  assert (p2 ∈ non_blank (size s) (grid s)) as H2
    by (rewrite Hnb; right; left).
  apply elem_of_non_blank in H1 as [_ H1], H2 as [_ H2].
  assert (p1 <> p2) as Hne.
  { pose proof (NoDup_non_blank (size s) (grid s)) as Hnd. rewrite Hnb in Hnd.
    apply NoDup_cons in Hnd as [Hnd _]. intros ->. apply Hnd. left. }
  destruct p1 as [r1 c1], p2 as [r2 c2].
  rewrite (grid_get_wf _ _ (r2, c2) Hwf H2 : grid_get _ r2 c2 = _). simpl.
  rewrite (grid_get_wf _ _ (r1, c1) Hwf H1 : grid_get _ r1 c1 = _). simpl.
  destruct (grid_set_wf _ _ (r1, c1) (cell (grid s) (r2, c2)) Hwf H1)
    as (g1 & Hg1 & Hwf1 & Hc1).
  simpl in Hg1. rewrite Hg1. simpl.
  destruct (grid_set_wf _ _ (r2, c2) (cell (grid s) (r1, c1)) Hwf1 H2)
    as (g2 & Hg2 & Hwf2 & Hc2).
  simpl in Hg2. rewrite Hg2. simpl.
  exists g2. split; [done|]. split; [done|].
  intros q Hq. rewrite Hc2, Hc1 by done. unfold transp.
  repeat case_decide; congruence.
Qed.

Lemma inversions_swap a b r :
  a <> b ->
  inversions (b :: a :: r) - inversions (a :: b :: r)
  = if decide (a < b) then 1 else -1.
Proof.
  intros Hne. simpl inversions. rewrite !filter_cons.
  repeat case_decide; simpl length; lia.
Qed.

(** ** The parity test *)

Lemma check_solvability_spec s :
  wf (size s) (grid s) ->
  _check_solvability s = Ok (parity_test (size s) (grid s)).
Proof.
  intros Hwf. unfold _check_solvability, parity_test.
  rewrite count_inversions_spec. simpl.
  destruct (size s mod 2 =? 1); [done|].
  by rewrite find_blank_position_spec.
Qed.

Section Repair.
Variables (n : Z) (g g' : list (list Z)) (p1 p2 : Z * Z) (rest : list (Z * Z)).
Hypothesis Hwf : wf n g.
Hypothesis Hwf' : wf n g'.
Hypothesis Hnd : NoDup (concat g).
Hypothesis Hnb : non_blank n g = p1 :: p2 :: rest.
Hypothesis Hcells : forall q, inb n q -> cell g' q = cell g (transp p1 p2 q).

Lemma repair_p1 : cell g p1 <> 0 /\ inb n p1.
Proof. apply elem_of_non_blank. rewrite Hnb. left. Qed.

Lemma repair_p2 : cell g p2 <> 0 /\ inb n p2.
Proof. apply elem_of_non_blank. rewrite Hnb. right. left. Qed.

Lemma repair_fresh : p1 <> p2 /\ (p1 ∉ rest) /\ (p2 ∉ rest).
Proof.
  pose proof (NoDup_non_blank n g) as H. rewrite Hnb in H.
  apply NoDup_cons in H as [H1 H]. apply NoDup_cons in H as [H2 _].
  split_and!; [|by intros ?; apply H1; right|done].
  intros ->. apply H1. left.
Qed.

Lemma repair_distinct : cell g p1 <> cell g p2.
Proof.
  intros E. destruct repair_fresh as [Hne _]. apply Hne.
  apply (cell_inj n g); [done|done|apply repair_p1|apply repair_p2|done].
Qed.

Lemma repair_zero q : inb n q -> cell g' q = 0 <-> cell g q = 0.
Proof.
  intros Hq. rewrite Hcells by done. unfold transp.
  destruct repair_p1 as [H1 _], repair_p2 as [H2 _].
  repeat case_decide; subst; tauto.
Qed.

Lemma repair_non_blank : non_blank n g' = non_blank n g.
Proof.
  unfold non_blank. apply filter_ext_in. intros q Hq%elem_of_positions.
  by rewrite repair_zero.
Qed.

Lemma repair_first_blank : first_blank n g' = first_blank n g.
Proof.
  unfold first_blank. f_equal. apply filter_ext_in.
  intros q Hq%elem_of_positions. by apply repair_zero.
Qed.

Lemma repair_flat_before :
  flat_puzzle g = cell g p1 :: cell g p2 :: (cell g <$> rest).
Proof. by rewrite (flat_puzzle_cells n), Hnb. Qed.

Lemma repair_flat_after :
  flat_puzzle g' = cell g p2 :: cell g p1 :: (cell g <$> rest).
Proof.
  rewrite (flat_puzzle_cells n), repair_non_blank, Hnb by done.
  destruct repair_p1 as [_ H1], repair_p2 as [_ H2].
  destruct repair_fresh as (Hne & Hf1 & Hf2).
  rewrite !fmap_cons, !Hcells by done. unfold transp at 1 2.
  rewrite decide_True by done.
  rewrite (decide_False (P := p2 = p1)), decide_True by done.
  do 2 f_equal. apply list_fmap_ext. intros i q Hq%list_elem_of_lookup_2.
  assert (q ∈ non_blank n g) as [_ Hqb]%elem_of_non_blank
    by (rewrite Hnb; by do 2 right).
  rewrite Hcells by done. unfold transp.
  rewrite !decide_False; [done|by intros ->..].
Qed.

Lemma repair_inversions :
  inversions (flat_puzzle g') - inversions (flat_puzzle g)
  = if decide (cell g p1 < cell g p2) then 1 else -1.
Proof.
  rewrite repair_flat_before, repair_flat_after.
  apply inversions_swap, repair_distinct.
Qed.

Lemma repair_perm : concat g' ≡ₚ concat g.
Proof.
  apply (cells_transp_perm n g g' p1 p2); try done;
    [apply repair_p1|apply repair_p2].
Qed.

Lemma repair_parity : parity_test n g' = negb (parity_test n g).
Proof.
  unfold parity_test. rewrite repair_first_blank.
  pose proof repair_inversions as H.
  set (i' := inversions (flat_puzzle g')) in *.
  set (i := inversions (flat_puzzle g)) in *.
  set (k := n - _).
  assert (i' = i + 1 \/ i' = i - 1) as Hi by (case_decide; lia).
  clearbody i i' k. clear H.
  destruct (n mod 2 =? 1).
  - destruct (i mod 2 =? 0) eqn:E, (i' mod 2 =? 0) eqn:E'; try done;
      exfalso; Z.to_euclidean_division_equations; lia.
  - destruct ((i + k) mod 2 =? 1) eqn:E, ((i' + k) mod 2 =? 1) eqn:E';
      try done; exfalso; Z.to_euclidean_division_equations; lia.
Qed.
End Repair.

(** ** Boards holding each value once *)

Lemma perm_has_blank n g :
  1 <= n -> wf n g -> concat g ≡ₚ seqZ 0 (n * n) ->
  exists b, inb n b /\ cell g b = 0.
Proof.
  intros Hn Hwf Hperm.
  assert (0 ∈ concat g) as H0 by (rewrite Hperm, elem_of_seqZ; nia).
  rewrite (concat_cells n g Hwf) in H0.
  apply list_elem_of_fmap in H0 as (b & E & Hb%elem_of_positions). by exists b.
Qed.

Lemma perm_flat_length n g :
  1 <= n -> concat g ≡ₚ seqZ 0 (n * n) ->
  Z.of_nat (length (flat_puzzle g)) = n * n - 1.
Proof.
  intros Hn Hperm. unfold flat_puzzle. rewrite Hperm.
  rewrite seqZ_cons by nia. rewrite filter_cons_False by (intros ?; done).
  rewrite filter_all; [rewrite length_seqZ; lia|].
  intros x Hx%elem_of_seqZ. lia.
Qed.

Lemma perm_two_tiles n g :
  2 <= n -> wf n g -> concat g ≡ₚ seqZ 0 (n * n) ->
  exists p1 p2 rest, non_blank n g = p1 :: p2 :: rest.
Proof.
  intros Hn Hwf Hperm. pose proof (perm_flat_length n g ltac:(lia) Hperm) as Hlen.
  rewrite (flat_puzzle_cells n g Hwf), length_fmap in Hlen.
  destruct (non_blank n g) as [|p1 [|p2 rest]]; simpl in Hlen; [nia|nia|].
  by exists p1, p2, rest.
Qed.

(** The board [generate_solvable_puzzle] starts from. *)
Lemma solved_board n :
  1 <= n ->
  exists g, grid_set (solved_grid n) (n - 1) (n - 1) 0 = Ok g /\ wf n g /\
    concat g ≡ₚ seqZ 0 (n * n) /\
    forall q, inb n q ->
      cell g q = if decide (q = (n - 1, n - 1)) then 0 else rank n q.
Proof.
  intros Hn.
  assert (inb n (n - 1, n - 1)) as Hlast by (unfold inb; simpl; lia).
  destruct (grid_set_wf n (solved_grid n) (n - 1, n - 1) 0) as (g & Hg & Hwf & Hc);
    [apply wf_solved_grid; lia|done|].
  exists g. split; [done|]. split; [done|]. split.
  - rewrite (concat_cells n g Hwf).
    pose (h := fun v : Z => if decide (v = n * n) then 0 else v).
    rewrite (list_fmap_ext _ (h ∘ rank n) (positions n)).
    2: { intros i q Hq%list_elem_of_lookup_2%elem_of_positions.
         rewrite Hc by done. unfold h. simpl.
         pose proof (rank_last n q Hq). repeat case_decide; try tauto.
         apply cell_solved_grid; [lia|done]. }
    rewrite list_fmap_compose, rank_positions by lia.
    replace (n * n) with ((n * n - 1) + 1) at 1 by lia.
    rewrite seqZ_app, fmap_app by lia.
    rewrite (list_fmap_ext h id (seqZ 1 (n * n - 1))).
    2: { intros i v Hv%list_elem_of_lookup_2%elem_of_seqZ. unfold h.
         rewrite decide_False by lia. done. }
    rewrite list_fmap_id. replace (1 + (n * n - 1)) with (n * n) by lia.
    change (seqZ (n * n) 1) with [n * n]. simpl. unfold h at 1.
    rewrite decide_True by done.
    rewrite (seqZ_cons 0) by nia. rewrite <- Permutation_cons_append.
    replace (Z.succ 0) with 1 by lia. replace (Z.pred (n * n)) with (n * n - 1) by lia.
    done.
  - intros q Hq. rewrite Hc by done. case_decide; [done|].
    apply cell_solved_grid; [lia|done].
Qed.

(** ** Generation *)

Lemma generate_spec s rnd :
  2 <= size s ->
  exists s', generate_solvable_puzzle s rnd = Ok s' /\
    difficulty s' = difficulty s /\ size s' = size s /\
    wf (size s) (grid s') /\ concat (grid s') ≡ₚ seqZ 0 (size s * size s) /\
    inb (size s) (blank_pos s') /\ cell (grid s') (blank_pos s') = 0 /\
    moves (stats s') = 0 /\
    _check_solvability s' = Ok true.
Proof.
  intros Hn. unfold generate_solvable_puzzle. cbv zeta.
  cbn [size grid with_grid with_blank_pos].
  destruct (solved_board (size s)) as (g1 & -> & Hwf1 & Hperm1 & Hc1); [lia|].
  simpl bind.
  set (s1 := with_blank_pos _ _).
  destruct (shuffle_puzzle_inv s1 rnd) as (g2 & -> & Hwf2 & Hperm2).
  { done. }
  { unfold inb; simpl; lia. }
  { simpl. rewrite Hc1 by (unfold inb; simpl; lia). by rewrite decide_True. }
  simpl bind. simpl in Hwf2, Hperm2. rewrite Hperm1 in Hperm2.
  destruct (perm_has_blank (size s) g2) as (b & Hb & Hb0); [lia|done|done|].
  pose proof (perm_NoDup _ _ Hperm2) as Hnd2.
  rewrite (find_blank_position_perm (with_grid s1 g2) b) by done.
  simpl bind. set (s3 := with_blank_pos _ b).
  rewrite (check_solvability_spec s3) by done. simpl bind.
  change (size s3) with (size s). change (grid s3) with g2.
  destruct (parity_test (size s) g2) eqn:Epar; simpl negb; cbv iota.
  - simpl bind. eexists. split; [done|]. split_and!; try done.
    rewrite (check_solvability_spec (with_stats s3 _)) by done.
    by f_equal.
  - destruct (perm_two_tiles (size s) g2) as (p1 & p2 & rest & Hnb);
      [lia|done|done|].
    destruct (make_solvable_spec s3 p1 p2 rest) as (g3 & -> & Hwf3 & Hc3);
      [done|done|]. simpl bind.
    change (size s3) with (size s) in *. change (grid s3) with g2 in *.
    pose proof (repair_perm _ _ _ _ _ _ Hwf2 Hwf3 Hnb Hc3) as Hperm3.
    rewrite Hperm2 in Hperm3.
    assert (cell g3 b = 0) as Hb3
      by (by apply (repair_zero (size s) g2 g3 p1 p2 rest)).
    rewrite (find_blank_position_perm (with_grid s3 g3) b);
      [|done|by apply (perm_NoDup (size s))|done|done].
    simpl bind. eexists. split; [done|]. split_and!; try done.
    rewrite (check_solvability_spec (with_stats _ _)) by done.
    f_equal. simpl.
    rewrite (repair_parity (size s) g2 g3 p1 p2 rest), Epar by done. done.
Qed.

Lemma generate_inv s rnd :
  size s = value (difficulty s) ->
  exists s', generate_solvable_puzzle s rnd = Ok s' /\ Inv s' /\
    difficulty s' = difficulty s /\ moves (stats s') = 0 /\
    _check_solvability s' = Ok true.
Proof.
  intros Hsz. pose proof (value_range (difficulty s)) as Hv.
  destruct (generate_spec s rnd) as
    (s' & Hgen & Hd & Hs & Hwf & Hperm & Hb & Hb0 & Hm & Hchk); [lia|].
  exists s'. split; [done|]. split; [|done].
  rewrite <- Hs in *. constructor; try done; [congruence|].
  by apply (cell_get (size s')).
Qed.

(** ** Moves *)

Lemma can_move_tile_spec s row col :
  wf (size s) (grid s) ->
  can_move_tile s row col
  = Ok (bool_decide (inb (size s) (row, col) /\ cell (grid s) (row, col) <> 0 /\
                     adjacent (row, col) (blank_pos s))).
Proof.
  intros Hwf. unfold can_move_tile.
  fold (in_bounds (size s) row col).
  destruct (in_bounds (size s) row col) eqn:Hin; simpl.
  - apply in_bounds_inb in Hin.
    rewrite (grid_get_wf _ _ (row, col) Hwf Hin : grid_get _ row col = _).
    simpl. destruct (cell (grid s) (row, col) =? 0) eqn:E.
    + rewrite bool_decide_eq_false_2; [done|]. intros (_ & ? & _). lia.
    + destruct (blank_pos s) as [br bc]. f_equal. symmetry.
      match goal with |- _ = ?b => destruct b eqn:Eb end.
      * apply bool_decide_eq_true. unfold adjacent. simpl.
        split_and!; [done|lia|lia].
      * apply bool_decide_eq_false. unfold adjacent. simpl. lia.
  - rewrite bool_decide_eq_false_2; [done|]. intros (? & _).
    apply in_bounds_inb in H. congruence.
Qed.

Lemma move_tile_accept s row col :
  wf (size s) (grid s) -> inb (size s) (blank_pos s) ->
  can_move_tile s row col = Ok true ->
  exists g',
    move_tile s row col
    = Ok (with_stats (with_blank_pos (with_grid s g') (row, col))
            {| moves := moves (stats s) + 1 |}, true) /\
    wf (size s) g' /\
    forall q, inb (size s) q ->
      cell g' q = if decide (q = (row, col)) then 0
                  else if decide (q = blank_pos s) then cell (grid s) (row, col)
                  else cell (grid s) q.
Proof.
  intros Hwf Hb Hcan. unfold move_tile. rewrite Hcan. simpl.
  rewrite can_move_tile_spec in Hcan by done.
  injection Hcan as Hcan. apply bool_decide_eq_true in Hcan as (Hin & _ & _).
  rewrite (grid_get_wf _ _ (row, col) Hwf Hin : grid_get _ row col = _). simpl.
  destruct (grid_set_wf _ _ (blank_pos s) (cell (grid s) (row, col)) Hwf Hb)
    as (g1 & -> & Hwf1 & Hc1). simpl.
  destruct (grid_set_wf _ _ (row, col) 0 Hwf1 Hin) as (g2 & Hg2 & Hwf2 & Hc2).
  simpl in Hg2. rewrite Hg2. simpl.
  exists g2. split; [done|]. split; [done|].
  intros q Hq. rewrite Hc2, Hc1 by done. done.
Qed.

Lemma move_tile_reject s row col :
  can_move_tile s row col = Ok false -> move_tile s row col = Ok (s, false).
Proof. intros Hcan. unfold move_tile. by rewrite Hcan. Qed.

Lemma move_tile_inv s row col :
  Inv s -> exists s' b, move_tile s row col = Ok (s', b) /\ Inv s' /\
    moves (stats s') = moves (stats s) + (if b then 1 else 0).
Proof.
  intros [Hsz Hwf Hperm Hb Hb0].
  pose proof (can_move_tile_spec s row col Hwf) as Hcan.
  destruct (bool_decide _) eqn:E.
  - destruct (move_tile_accept s row col Hwf Hb Hcan) as (g' & -> & Hwf' & Hc).
    eexists _, true. split; [done|]. split; [|done].
    apply bool_decide_eq_true in E as (Hin & _ & _).
    apply (cell_get (size s)) in Hb0; [|done..].
    constructor; simpl; try done.
    + rewrite <- Hperm.
      apply (cells_transp_perm (size s) (grid s) g' (blank_pos s) (row, col));
        try done.
      intros q Hq. rewrite Hc by done. unfold transp.
      repeat case_decide; congruence.
    + apply (cell_get (size s) g' (row, col)); [done..|].
      rewrite Hc by done. by rewrite decide_True.
  - rewrite (move_tile_reject s row col Hcan). exists s, false.
    split; [done|]. split; [done|lia].
Qed.

(** ** Example boards *)

Lemma wf_3x3 a b c d e f g h i : wf 3 [[a; b; c]; [d; e; f]; [g; h; i]].
Proof. split; [done|]. by repeat constructor. Qed.

Lemma Inv_centre m : Inv (game EASY board_centre (1, 1) m).
Proof.
  constructor; simpl; [done|apply wf_3x3| |unfold inb; simpl; lia|done].
  apply (bool_decide_unpack _). by vm_compute.
Qed.

(** ** Detecting the solved board *)

Lemma positions_last n :
  1 <= n ->
  exists init, positions n = init ++ [(n - 1, n - 1)] /\
    rank n <$> init = seqZ 1 (n * n - 1) /\ (n - 1, n - 1) ∉ init.
Proof.
  intros Hn. pose proof (rank_positions n ltac:(lia)) as Hrank.
  pose proof (NoDup_positions n) as Hnd.
  assert (forall p, p ∈ positions n -> inb n p) as Hin
    by (by intros p ?%elem_of_positions).
  destruct (positions n) as [|p0 ps] using rev_ind.
  { apply (f_equal length) in Hrank. rewrite length_seqZ in Hrank.
    simpl in Hrank. nia. }
  clear IHps. rename p0 into x, ps into init.
  replace (n * n) with ((n * n - 1) + 1) in Hrank by lia.
  rewrite fmap_app, seqZ_app in Hrank by lia.
  replace (1 + (n * n - 1)) with (n * n) in Hrank by lia.
  change (seqZ (n * n) 1) with [n * n] in Hrank. simpl in Hrank.
  apply app_inj_tail in Hrank as [Hinit Hx].
  assert (x = (n - 1, n - 1)) as ->.
  { apply rank_last; [|done]. apply Hin, elem_of_app. right. left. }
  exists init. split; [done|]. split; [done|].
  apply NoDup_app in Hnd as (_ & Hdisj & _). intros Hl.
  apply (Hdisj _ Hl). left.
Qed.

Section Scan.
Variables (n : Z) (g : list (list Z)).
Hypothesis Hwf : wf n g.

Lemma scan_init ps e :
  (forall p, p ∈ ps -> inb n p /\ p <> (n - 1, n - 1)) ->
  rank n <$> ps = seqZ e (Z.of_nat (length ps)) ->
  for_each ps (scan_step n g) e
  = Ok (if decide (Forall (fun p => cell g p = rank n p) ps)
        then Next (e + Z.of_nat (length ps)) else Exit false).
Proof.
  revert e. induction ps as [|p ps IH]; intros e Hps Hrank.
  - rewrite decide_True by constructor. simpl. by rewrite Z.add_0_r.
  - destruct (Hps p) as [Hp Hnl]; [left|].
    rewrite fmap_cons, seqZ_cons in Hrank by (simpl length; lia).
    injection Hrank as He Hrank.
    assert (rank n <$> ps = seqZ (e + 1) (Z.of_nat (length ps))) as Hrank'
      by (rewrite Hrank; f_equal; simpl length; lia).
    assert (scan_step n g p e = Ok (if decide (cell g p = rank n p)
                           then Next (e + 1) else Exit false)) as Hstep.
    { unfold scan_step.
      destruct ((p.1 =? n - 1) && (p.2 =? n - 1)) eqn:E.
      { exfalso. apply Hnl. apply andb_true_iff in E as [E1%Z.eqb_eq E2%Z.eqb_eq].
        destruct p; simpl in *. congruence. }
      rewrite (grid_get_wf n g p Hwf Hp). simpl. rewrite He.
      destruct (Z.eqb_spec (cell g p) e) as [Heq|Heq]; simpl.
      - by rewrite decide_True.
      - by rewrite decide_False. }
    destruct (decide (cell g p = rank n p)) as [Hc|Hc].
    + rewrite (for_each_cons_next _ _ _ _ _ Hstep).
      rewrite IH; [|by intros; apply Hps; right|done].
      destruct (decide (Forall _ ps)) as [Hf|Hf].
      * rewrite decide_True by by constructor. simpl length. do 2 f_equal. lia.
      * rewrite decide_False; [done|]. by intros [_ ?]%Forall_cons.
    + rewrite (for_each_cons_exit _ _ _ _ _ Hstep).
      rewrite decide_False; [done|]. by intros [? _]%Forall_cons.
Qed.

Lemma scan_positions :
  1 <= n ->
  for_each (positions n) (scan_step n g) 1
  = Ok (Exit (bool_decide (Forall (fun p => cell g p = target n p) (positions n)))).
Proof.
  intros Hn. destruct (positions_last n Hn) as (init & Hpos & Hrank & Hnl).
  assert (forall p, p ∈ init -> inb n p /\ p <> (n - 1, n - 1)) as Hinit.
  { intros p Hp. split; [|by intros ->].
    apply elem_of_positions. rewrite Hpos. apply elem_of_app. by left. }
  assert (inb n (n - 1, n - 1)) as Hlast by (unfold inb; simpl; lia).
  assert (Z.of_nat (length init) = n * n - 1) as Hlen.
  { apply (f_equal length) in Hrank.
    rewrite length_fmap, length_seqZ in Hrank. nia. }
  assert (forall p, p ∈ init -> target n p = rank n p) as Htarget.
  { intros p [_ Hp]%Hinit. unfold target. by rewrite decide_False. }
  assert (target n (n - 1, n - 1) = 0) as Htl
    by (unfold target; by rewrite decide_True).
  rewrite Hpos, for_each_app, scan_init; [|done|by rewrite Hlen].
  destruct (decide (Forall _ init)) as [Hf|Hf]; simpl bind.
  - simpl for_each. unfold scan_step at 1. simpl fst. simpl snd.
    rewrite !Z.eqb_refl. simpl andb. cbv iota.
    rewrite (grid_get_wf n g (n - 1, n - 1) Hwf Hlast
             : grid_get g (n - 1) (n - 1) = _).
    simpl. do 2 f_equal. symmetry.
    destruct (cell g (n - 1, n - 1) =? 0) eqn:E.
    + apply bool_decide_eq_true, Forall_app. split.
      * apply Forall_forall. intros p Hp. rewrite Htarget by done.
        by apply (proj1 (Forall_forall _ _) Hf).
      * apply Forall_singleton. cbv beta. rewrite Htl. lia.
    + apply bool_decide_eq_false. intros [_ [Hl _]%Forall_cons]%Forall_app.
      cbv beta in Hl. rewrite Htl in Hl. lia.
  - do 2 f_equal. symmetry. apply bool_decide_eq_false.
    intros [Hi _]%Forall_app. apply Hf, Forall_forall. intros p Hp.
    rewrite <- Htarget by done. by apply (proj1 (Forall_forall _ _) Hi).
Qed.
End Scan.

Lemma is_solved_spec s :
  wf (size s) (grid s) -> 1 <= size s ->
  is_solved s
  = Ok (bool_decide (Forall (fun p => cell (grid s) p = target (size s) p)
                       (positions (size s)))).
Proof.
  intros Hwf Hn. unfold is_solved.
  rewrite (for_each_positions (size s) (scan_step (size s) (grid s))).
  by rewrite (scan_positions (size s) (grid s) Hwf Hn).
Qed.

(** ** Inversions as index pairs *)

Lemma seq_S_fmap k m : seq k (S m) = k :: (S <$> seq k m).
Proof. simpl. by rewrite fmap_S_seq. Qed.

Lemma filter_at_index (P : Z -> Prop) `{!forall b, Decision (P b)} t :
  length (filter (at_index P t) (seq 0 (length t))) = length (filter P t).
Proof.
  induction t as [|a t IH]; [done|].
  simpl length at 2. rewrite seq_S_fmap, !filter_cons.
  assert (length (filter (at_index P (a :: t)) (S <$> seq 0 (length t)))
          = length (filter P t)) as Htail.
  { by rewrite filter_fmap, length_fmap, <- IH. }
  unfold at_index at 1. simpl lookup.
  destruct (decide (P a)); simpl length; by rewrite Htail.
Qed.

Lemma inverted_first a t m :
  m = length t ->
  length (filter (inverted (a :: t)) ((fun j => (0%nat, j)) <$> seq 0 (S m)))
  = length (filter (fun b => b < a) t).
Proof.
  intros ->. rewrite seq_S_fmap, fmap_cons.
  rewrite filter_cons_False by (intros [? _]; simpl in *; lia).
  rewrite <- list_fmap_compose, filter_fmap, length_fmap.
  rewrite <- (filter_at_index (fun b => b < a) t). f_equal.
  apply list_filter_iff. intros j. unfold inverted, at_index. simpl.
  destruct (t !! j); [|tauto]. split; [tauto|]. split; [lia|done].
Qed.

Lemma inverted_shift a t i j : inverted (a :: t) (S i, S j) <-> inverted t (i, j).
Proof. unfold inverted. simpl. split; intros [? ?]; (split; [lia|done]). Qed.

Lemma inverted_rest a t m (rows : list nat) :
  length (filter (inverted (a :: t)) (index_pairs (S <$> rows) (seq 0 (S m))))
  = length (filter (inverted t) (index_pairs rows (seq 0 m))).
Proof.
  unfold index_pairs. induction rows as [|i rows IH]; [done|].
  rewrite fmap_cons, !bind_cons, !filter_app, !length_app, IH. f_equal.
  rewrite seq_S_fmap, fmap_cons.
  rewrite filter_cons_False by (intros [? _]; simpl in *; lia).
  rewrite <- list_fmap_compose, !filter_fmap, !length_fmap. f_equal.
  apply list_filter_iff. intros j. apply inverted_shift.
Qed.

Lemma inversions_pairs l :
  inversions l = Z.of_nat (length (inversion_pairs l)).
Proof.
  induction l as [|a t IH]; [done|].
  simpl inversions. rewrite IH. unfold inversion_pairs.
  change (length (a :: t)) with (S (length t)).
  set (m := length t).
  assert (index_pairs (seq 0 (S m)) (seq 0 (S m))
          = ((fun j => (0%nat, j)) <$> seq 0 (S m))
            ++ index_pairs (S <$> seq 0 m) (seq 0 (S m))) as ->.
  { rewrite (seq_S_fmap 0 m) at 1. unfold index_pairs. by rewrite bind_cons. }
  rewrite filter_app, length_app, (inverted_first a t m eq_refl), inverted_rest.
  lia.
Qed.

Lemma concat_row_major n g :
  wf n g ->
  Forall2 (fun p v => grid_get g p.1 p.2 = Ok v) (positions n) (concat g).
Proof.
  intros Hwf. rewrite (concat_cells n g Hwf).
  apply Forall2_fmap_r, Forall_Forall2_diag, Forall_forall.
  intros p Hp%elem_of_positions. by apply (grid_get_wf n).
Qed.

Lemma parity_bools x :
  (x mod 2 =? 1) = Z.odd x /\ (x mod 2 =? 0) = Z.even x.
Proof.
  rewrite Zmod_odd, <- Z.negb_odd. by destruct (Z.odd x).
Qed.

(** ** Sequences of calls *)

Lemma filter_absent (l : list Z) v :
  v ∉ l -> filter (fun x => x = v) l = [].
Proof.
  induction l as [|x l IH]; intros Hv; [done|].
  apply not_elem_of_cons in Hv as [Hne Hv].
  rewrite filter_cons_False by congruence. by apply IH.
Qed.

Lemma NoDup_occurs_once (l : list Z) v :
  NoDup l -> v ∈ l -> length (filter (fun x => x = v) l) = 1%nat.
Proof.
  induction 1 as [|x l Hx Hnd IH]; intros Hv; [by apply elem_of_nil in Hv|].
  rewrite filter_cons. case_decide as E.
  - subst x. by rewrite filter_absent.
  - apply IH. apply elem_of_cons in Hv as [->|Hv]; done.
Qed.

Lemma Inv_occurrences s v :
  Inv s -> 0 <= v < size s * size s -> occurrences v (grid s) = 1%nat.
Proof.
  intros [_ _ Hperm _ _] Hv. unfold occurrences.
  apply NoDup_occurs_once; [by apply (perm_NoDup (size s))|].
  rewrite Hperm, elem_of_seqZ. lia.
Qed.

Lemma step_inv s c : Inv s -> exists s', step s c = Ok s' /\ Inv s'.
Proof.
  intros HI. destruct c as [rnd|d rnd|row col]; simpl.
  - destruct (generate_inv s rnd) as (s' & -> & HI' & _); [apply HI|]. eauto.
  - destruct (generate_inv (with_difficulty s d) rnd) as (s' & -> & HI' & _);
      [done|]. eauto.
  - destruct (move_tile_inv s row col HI) as (s' & b & -> & HI' & _). eauto.
Qed.

Lemma run_inv s cs : Inv s -> exists s', run s cs = Ok s' /\ Inv s'.
Proof.
  revert s. induction cs as [|c cs IH]; intros s HI; simpl; [eauto|].
  destruct (step_inv s c HI) as (s1 & -> & HI1). simpl. by apply IH.
Qed.

Lemma init_inv d rnd :
  exists s, init d rnd = Ok s /\ Inv s /\ difficulty s = d /\
    moves (stats s) = 0 /\ _check_solvability s = Ok true.
Proof. by apply generate_inv. Qed.

(** ** Moving one element along a list *)

Lemma filter_length_jump (P : Z -> Prop) `{!forall x, Decision (P x)}
    (A M B : list Z) x :
  length (filter P (A ++ x :: M ++ B)) = length (filter P (A ++ M ++ x :: B)).
Proof.
  repeat rewrite ?filter_app, ?filter_cons.
  destruct (decide (P x)); repeat (rewrite ?length_app; simpl length); lia.
Qed.

Lemma inversions_jump x (M B : list Z) :
  x ∉ M ->
  exists k, inversions (x :: M ++ B) - inversions (M ++ x :: B)
            = 2 * k + Z.of_nat (length M).
Proof.
  induction M as [|m M IH]; intros Hx.
  - exists 0. simpl. lia.
  - apply not_elem_of_cons in Hx as [Hne Hx]. destruct (IH Hx) as [k Hk].
    pose proof (inversions_swap m x (M ++ B) ltac:(congruence)) as Hswap.
    pose proof (filter_length_jump (fun b => b < m) [] M B x) as Hcount.
    assert (inversions (m :: x :: M ++ B)
            = Z.of_nat (length (filter (fun b => b < m) (x :: M ++ B)))
              + inversions (x :: M ++ B)) as E1 by reflexivity.
    assert (inversions (m :: M ++ x :: B)
            = Z.of_nat (length (filter (fun b => b < m) (M ++ x :: B)))
              + inversions (M ++ x :: B)) as E2 by reflexivity.
    change ((m :: M) ++ B) with (m :: M ++ B).
    change ((m :: M) ++ x :: B) with (m :: M ++ x :: B).
    change (length (m :: M)) with (S (length M)).
    simpl app in Hcount.
    destruct (decide (m < x)); [exists k|exists (k - 1)]; lia.
Qed.

Lemma inversions_jump_app (A M B : list Z) x :
  x ∉ M ->
  exists k, inversions (A ++ x :: M ++ B) - inversions (A ++ M ++ x :: B)
            = 2 * k + Z.of_nat (length M).
Proof.
  intros Hx. induction A as [|a A [k Hk]]; [by apply inversions_jump|].
  exists k. simpl. rewrite (filter_length_jump (fun b => b < a)). lia.
Qed.

(** ** Sliding a tile into the blank *)

Lemma positions_lookup_rank n k p :
  0 <= n -> positions n !! k = Some p -> rank n p = 1 + Z.of_nat k.
Proof.
  intros Hn Hp. pose proof (rank_positions n Hn) as H.
  apply (f_equal (fun l => l !! k)) in H.
  rewrite list_lookup_fmap, Hp in H. simpl in H. symmetry in H.
  by apply lookup_seqZ in H as [? _].
Qed.

Lemma positions_split n b t :
  inb n b -> inb n t -> rank n b < rank n t ->
  exists P1 PM P2, positions n = P1 ++ b :: PM ++ t :: P2 /\
    Z.of_nat (length PM) = rank n t - rank n b - 1.
Proof.
  intros Hb Ht Hlt. assert (0 <= n) as Hn by (destruct Hb; lia).
  apply elem_of_positions, list_elem_of_split in Hb as (P1 & L2 & E).
  assert (rank n b = 1 + Z.of_nat (length P1)) as Hrb.
  { apply positions_lookup_rank; [done|]. rewrite E. by apply list_lookup_middle. }
  apply elem_of_positions in Ht. rewrite E in Ht.
  apply elem_of_app in Ht as [Ht|Ht].
  { apply list_elem_of_lookup in Ht as [i Hi].
    pose proof (lookup_lt_Some _ _ _ Hi) as Hlen.
    assert (rank n t = 1 + Z.of_nat i); [|lia].
    apply positions_lookup_rank; [done|]. rewrite E. by apply lookup_app_l_Some. }
  apply elem_of_cons in Ht as [->|Ht]; [lia|].
  apply list_elem_of_split in Ht as (PM & P2 & ->).
  exists P1, PM, P2. split; [done|].
  assert (rank n t = 1 + Z.of_nat (length (P1 ++ b :: PM))) as Hrt.
  { apply positions_lookup_rank; [done|]. rewrite E.
    replace (P1 ++ b :: PM ++ t :: P2) with ((P1 ++ b :: PM) ++ t :: P2)
      by (by rewrite <- (assoc_L (++))).
    by apply list_lookup_middle. }
  rewrite length_app in Hrt. simpl in Hrt. lia.
Qed.

Lemma transp_comm p1 p2 q : transp p1 p2 q = transp p2 p1 q.
Proof. unfold transp. repeat case_decide; congruence. Qed.

Section Slide.
Variables (n : Z) (g g' : list (list Z)) (b t : Z * Z).
Hypothesis Hwf : wf n g.
Hypothesis Hwf' : wf n g'.
Hypothesis Hnd : NoDup (concat g).
Hypothesis Hb : inb n b.
Hypothesis Ht : inb n t.
Hypothesis H0 : cell g b = 0.
Hypothesis Hcells : forall q, inb n q -> cell g' q = cell g (transp b t q).

Lemma slide_tiles q : inb n q -> q <> b -> cell g q <> 0.
Proof.
  intros Hq Hne E. apply Hne. apply (cell_inj n g); [done..|congruence].
Qed.

Lemma slide_inversions_fwd :
  rank n b < rank n t ->
  exists k, inversions (flat_puzzle g') - inversions (flat_puzzle g)
            = 2 * k + (rank n t - rank n b - 1).
Proof.
  intros Hlt. destruct (positions_split n b t Hb Ht Hlt) as (P1 & PM & P2 & E & Hlen).
  assert (b <> t) as Hbt by (intros ->; lia).
  pose proof (NoDup_positions n) as Hndp. rewrite E in Hndp.
  assert (forall q, q ∈ P1 ++ PM ++ P2 -> inb n q /\ q <> b /\ q <> t) as Hothers.
  { intros q Hq. split.
    - apply elem_of_positions. rewrite E.
      repeat rewrite ?elem_of_app, ?elem_of_cons in Hq.
      repeat rewrite ?elem_of_app, ?elem_of_cons. tauto.
    - apply NoDup_app in Hndp as (_ & H1 & Hndp).
      apply NoDup_cons in Hndp as (Hb2 & Hndp).
      apply NoDup_app in Hndp as (_ & HM & Hndp).
      apply NoDup_cons in Hndp as (Ht2 & _).
      specialize (H1 q). specialize (HM q).
      repeat rewrite ?elem_of_app, ?elem_of_cons in Hq.
      repeat rewrite ?elem_of_app, ?elem_of_cons in H1.
      repeat rewrite ?elem_of_app, ?elem_of_cons in HM.
      repeat rewrite ?elem_of_app, ?elem_of_cons in Hb2.
      split; intros ->; tauto. }
  assert (forall q, q ∈ P1 ++ PM ++ P2 -> cell g q <> 0 /\ cell g' q = cell g q)
    as Hsame.
  { intros q (Hq & Hqb & Hqt)%Hothers. split; [by apply slide_tiles|].
    rewrite Hcells by done. unfold transp. by rewrite !decide_False. }
  assert (cell g t <> 0) as Hx by (by apply slide_tiles).
  assert (cell g' b = cell g t) as Hgb
    by (rewrite Hcells by done; unfold transp; by rewrite decide_True).
  assert (cell g' t = 0) as Hgt.
  { rewrite Hcells by done. unfold transp.
    by rewrite (decide_False (P := t = b)), decide_True. }
  assert (flat_puzzle g
          = (cell g <$> P1) ++ (cell g <$> PM) ++ cell g t :: (cell g <$> P2)) as ->.
  { rewrite (flat_puzzle_cells n g Hwf). unfold non_blank. rewrite E.
    rewrite filter_app, filter_cons_False, filter_app, filter_cons_True by tauto.
    rewrite !filter_all, !fmap_app, fmap_cons; [done|intros q Hq; apply Hsame..];
      repeat rewrite ?elem_of_app, ?elem_of_cons; tauto. }
  assert (flat_puzzle g'
          = (cell g <$> P1) ++ cell g t :: (cell g <$> PM) ++ (cell g <$> P2)) as ->.
  { rewrite (flat_puzzle_cells n g' Hwf'). unfold non_blank. rewrite E.
    rewrite filter_app, filter_cons_True, filter_app, filter_cons_False
      by (rewrite ?Hgb; tauto).
    assert (forall P : list (Z * Z), (forall q, q ∈ P -> q ∈ P1 ++ PM ++ P2) ->
              cell g' <$> filter (fun p => cell g' p <> 0) P = cell g <$> P) as HP.
    { intros P HPin. rewrite filter_all.
      - apply list_fmap_ext. intros i q Hq%list_elem_of_lookup_2. by apply Hsame, HPin.
      - intros q Hq. destruct (Hsame q (HPin q Hq)) as [Hnz Heq].
        cbv beta. by rewrite Heq. }
    repeat rewrite ?fmap_app, ?fmap_cons.
    rewrite Hgb, (HP P1), (HP PM), (HP P2);
      [done|intros q Hq; repeat rewrite ?elem_of_app, ?elem_of_cons; tauto..]. }
  rewrite <- Hlen, <- (length_fmap (cell g) PM).
  apply inversions_jump_app.
  intros (q & Eq & Hq)%list_elem_of_fmap.
  destruct (Hothers q) as (Hqin & _ & Hqt);
    [repeat rewrite ?elem_of_app, ?elem_of_cons; tauto|].
  apply Hqt. by apply (cell_inj n g).
Qed.
End Slide.

Lemma slide_parity n g g' b t :
  wf n g -> wf n g' -> NoDup (concat g) -> inb n b -> inb n t ->
  cell g b = 0 -> adjacent t b ->
  (forall q, inb n q -> cell g' q = cell g (transp b t q)) ->
  parity_test n g' = parity_test n g.
Proof.
  intros Hwf Hwf' Hnd Hb Ht H0 Hadj Hcells.
  assert (NoDup (concat g')) as Hnd'.
  { by rewrite (cells_transp_perm n g g' b t). }
  assert (b <> t) as Hbt.
  { intros ->. unfold adjacent in Hadj. lia. }
  assert (cell g' t = 0) as H0'.
  { rewrite Hcells by done. unfold transp.
    by rewrite (decide_False (P := t = b)), decide_True. }
  assert (forall q, inb n q -> cell g q = cell g' (transp t b q)) as Hback.
  { intros q Hq. rewrite Hcells by (by apply transp_inb).
    by rewrite (transp_comm t b), transp_invol. }
  assert (first_blank n g = Some b) as Hfb.
  { apply first_blank_unique; [done..|].
    intros q Hq Hq0. apply (cell_inj n g); congruence. }
  assert (first_blank n g' = Some t) as Hfb'.
  { apply first_blank_unique; [done..|].
    intros q Hq Hq0. apply (cell_inj n g'); congruence. }
  assert (exists k, inversions (flat_puzzle g') - inversions (flat_puzzle g)
                    = 2 * k + (Z.abs (rank n t - rank n b) - 1)) as [k Hk].
  { destruct (Z.lt_trichotomy (rank n b) (rank n t)) as [Hlt|[Heq|Hgt]].
    - destruct (slide_inversions_fwd n g g' b t) as [k Hk]; try done.
      exists k. lia.
    - exfalso. apply Hbt. destruct b as [br bc], t as [tr tc].
      unfold rank, adjacent, inb in *. simpl in *.
      assert (tr = br) by nia. f_equal; lia.
    - destruct (slide_inversions_fwd n g' g t b) as [k Hk]; try done.
      exists (- k - (rank n b - rank n t - 1)). lia. }
  unfold parity_test. rewrite Hfb, Hfb'. simpl.
  destruct b as [br bc], t as [tr tc].
  unfold rank, adjacent, inb in *. simpl in *.
  set (i := inversions (flat_puzzle g)) in *.
  set (i' := inversions (flat_puzzle g')) in *.
  clearbody i i'.
  assert ((tr = br /\ tc = bc + 1) \/ (tr = br /\ tc = bc - 1) \/
          (tr = br + 1 /\ tc = bc) \/ (tr = br - 1 /\ tc = bc)) as Hcases by lia.
  destruct (n mod 2 =? 1) eqn:En.
  - destruct (i mod 2 =? 0) eqn:E, (i' mod 2 =? 0) eqn:E'; try done; exfalso;
      destruct Hcases as [[-> ->]|[[-> ->]|[[-> ->]|[-> ->]]]];
      Z.to_euclidean_division_equations; nia.
  - destruct ((i + (n - br)) mod 2 =? 1) eqn:E,
             ((i' + (n - tr)) mod 2 =? 1) eqn:E'; try done; exfalso;
      destruct Hcases as [[-> ->]|[[-> ->]|[[-> ->]|[-> ->]]]];
      Z.to_euclidean_division_equations; nia.
Qed.

(** ** Solvability along moves *)

Lemma move_tile_parity s row col s' b :
  Inv s -> move_tile s row col = Ok (s', b) ->
  Inv s' /\ parity_test (size s') (grid s') = parity_test (size s) (grid s).
Proof.
  intros HI Hmv. pose proof HI as [Hsz Hwf Hperm Hb Hb0].
  destruct (move_tile_inv s row col HI) as (s1 & b1 & Hmv1 & HI1 & _).
  rewrite Hmv in Hmv1. injection Hmv1 as <- <-. split; [done|].
  pose proof (can_move_tile_spec s row col Hwf) as Hcan.
  destruct (bool_decide _) eqn:E.
  - destruct (move_tile_accept s row col Hwf Hb Hcan) as (g' & Hmv' & Hwf' & Hc).
    rewrite Hmv in Hmv'. injection Hmv' as -> _. simpl.
    apply bool_decide_eq_true in E as (Hin & Hnz & Hadj).
    apply (cell_get (size s)) in Hb0; [|done..].
    apply (slide_parity (size s) (grid s) g' (blank_pos s) (row, col));
      try done; [by apply (perm_NoDup (size s))|].
    intros q Hq. rewrite Hc by done. unfold transp.
    repeat case_decide; congruence.
  - rewrite (move_tile_reject s row col Hcan) in Hmv. by injection Hmv as <- _.
Qed.

Lemma run_moves_parity s (ms : list (Z * Z)) :
  Inv s ->
  exists s', run s ((fun p => MoveTile p.1 p.2) <$> ms) = Ok s' /\ Inv s' /\
    size s' = size s /\
    parity_test (size s') (grid s') = parity_test (size s) (grid s).
Proof.
  revert s. induction ms as [|p ms IH]; intros s HI; [by exists s|].
  rewrite fmap_cons. simpl.
  destruct (move_tile_inv s p.1 p.2 HI) as (s1 & b & Hmv & HI1 & _).
  rewrite Hmv. simpl.
  destruct (move_tile_parity s p.1 p.2 s1 b HI Hmv) as [_ Hpar].
  destruct (IH s1 HI1) as (s' & Hrun & HI' & Hsz & Hpar').
  exists s'. split; [done|]. split; [done|].
  assert (size s1 = size s) as Hs1.
  { rewrite (inv_size s1 HI1), (inv_size s HI). f_equal.
    unfold move_tile in Hmv. destruct (can_move_tile s p.1 p.2) as [[|]|]; simpl in Hmv;
      [|by injection Hmv as <- _|done].
    destruct (grid_get _ _ _); simpl in Hmv; [|done].
    destruct (grid_set _ _ _ _); simpl in Hmv; [|done].
    destruct (grid_set _ _ _ _); simpl in Hmv; [|done].
    by injection Hmv as <- _. }
  split; congruence.
Qed.

Lemma filter_none {A} (P : A -> Prop) `{!forall x, Decision (P x)} (l : list A) :
  (forall x, x ∈ l -> ~ P x) -> filter P l = [].
Proof.
  induction l as [|x l IH]; intros HP; [done|].
  rewrite filter_cons_False by (apply HP; left).
  apply IH. intros; apply HP. by right.
Qed.

Lemma inversions_seqZ a (k : nat) : inversions (seqZ a (Z.of_nat k)) = 0.
Proof.
  revert a. induction k as [|k IH]; intros a; [done|].
  rewrite seqZ_cons by lia.
  replace (Z.pred (Z.of_nat (S k))) with (Z.of_nat k) by lia.
  simpl inversions. rewrite IH, filter_none; [done|].
  intros x Hx%elem_of_seqZ. lia.
Qed.

Lemma target_board_parity n g :
  1 <= n -> wf n g -> (forall p, inb n p -> cell g p = target n p) ->
  flat_puzzle g = seqZ 1 (n * n - 1) /\ parity_test n g = true.
Proof.
  intros Hn Hwf Hcells.
  destruct (positions_last n Hn) as (init & Hpos & Hrank & Hnl).
  assert (inb n (n - 1, n - 1)) as Hlast by (unfold inb; simpl; lia).
  assert (forall p, p ∈ init -> cell g p = rank n p) as Hinit.
  { intros p Hp. rewrite Hcells.
    - unfold target. rewrite decide_False; [done|]. by intros ->.
    - apply elem_of_positions. rewrite Hpos, elem_of_app. by left. }
  assert (cell g (n - 1, n - 1) = 0) as Hl0.
  { rewrite Hcells by done. unfold target. by rewrite decide_True. }
  assert (flat_puzzle g = seqZ 1 (n * n - 1)) as Hflat.
  { unfold flat_puzzle. rewrite (concat_cells n g Hwf), Hpos, fmap_app.
    rewrite (list_fmap_ext (cell g) (rank n) init)
      by (intros i p Hp%list_elem_of_lookup_2; by apply Hinit).
    rewrite Hrank. simpl. rewrite Hl0, filter_app, filter_cons_False by tauto.
    rewrite filter_nil, app_nil_r. apply filter_all.
    intros x Hx%elem_of_seqZ. lia. }
  split; [done|].
  assert (first_blank n g = Some (n - 1, n - 1)) as Hfb.
  { apply first_blank_unique; [done..|]. intros q Hq Hq0.
    rewrite Hcells in Hq0 by done. unfold target in Hq0.
    case_decide; [done|]. destruct Hq. nia. }
  unfold parity_test. rewrite Hfb, Hflat. simpl.
  replace (n * n - 1) with (Z.of_nat (Z.to_nat (n * n - 1))) by nia.
  rewrite inversions_seqZ. simpl.
  replace (n - (n - 1)) with 1 by lia. simpl.
  by destruct (n mod 2 =? 1).
Qed.

Lemma is_solved_parity s :
  wf (size s) (grid s) -> 1 <= size s -> is_solved s = Ok true ->
  parity_test (size s) (grid s) = true.
Proof.
  intros Hwf Hn Hsolved. rewrite is_solved_spec in Hsolved by done.
  injection Hsolved as Hsolved.
  apply bool_decide_eq_true in Hsolved. rewrite Forall_forall in Hsolved.
  apply target_board_parity; [done..|].
  intros p Hp. by apply Hsolved, elem_of_positions.
Qed.

(** ** The shuffle under a fair random source *)

Section IndexedLoop.
Context {S : Type} (I : nat -> S -> Prop).

Lemma for_each_seq_inv (body : nat -> S -> result (flow unit S)) k m s :
  I k s ->
  (forall i s, (k <= i < k + m)%nat -> I i s ->
     exists s', body i s = Ok (Next s') /\ I (Datatypes.S i) s') ->
  exists s', for_each (seq k m) body s = Ok (Next s') /\ I (k + m)%nat s'.
Proof.
  revert k s. induction m as [|m IH]; intros k s Hs Hbody; simpl.
  - exists s. by rewrite Nat.add_0_r.
  - destruct (Hbody k s) as (s1 & -> & Hs1); [lia|done|]. simpl.
    destruct (IH (Datatypes.S k) s1) as (s' & Hrun & Hs'); [done| |].
    + intros i s2 Hi. apply Hbody. lia.
    + exists s'. split; [done|]. by replace (k + Datatypes.S m)%nat
        with (Datatypes.S k + m)%nat by lia.
Qed.
End IndexedLoop.

Lemma shuffle_try_step n d g br bc :
  wf n g -> inb n (br, bc) ->
  (in_bounds n (br + d.1) (bc + d.2) = false ->
   shuffle_try n d (g, br, bc) = Ok (Next (g, br, bc))) /\
  (in_bounds n (br + d.1) (bc + d.2) = true ->
   exists g2, shuffle_try n d (g, br, bc) = Ok (Exit (g2, br + d.1, bc + d.2)) /\
     wf n g2 /\
     forall q, inb n q ->
       cell g2 q = if decide (q = (br + d.1, bc + d.2)) then 0
                   else if decide (q = (br, bc)) then cell g (br + d.1, bc + d.2)
                   else cell g q).
Proof.
  intros Hwf Hb. destruct d as [dr dc]. simpl. unfold shuffle_try.
  split; intros Hin; rewrite Hin; [done|].
  apply in_bounds_inb in Hin.
  set (new := (br + dr, bc + dc)) in *.
  rewrite (grid_get_wf n g new Hwf Hin : grid_get g (br + dr) (bc + dc) = _).
  simpl.
  destruct (grid_set_wf n g (br, bc) (cell g new) Hwf Hb)
    as (g1 & Hg1 & Hwf1 & Hc1).
  simpl in Hg1. rewrite Hg1. simpl.
  destruct (grid_set_wf n g1 new 0 Hwf1 Hin) as (g2 & Hg2 & Hwf2 & Hc2).
  simpl in Hg2. rewrite Hg2. simpl.
  exists g2. split; [done|]. split; [done|].
  intros q Hq. by rewrite Hc2, Hc1.
Qed.

Lemma elem_of_directions d :
  d ∈ directions <-> d = (0, 1) \/ d = (0, -1) \/ d = (1, 0) \/ d = (-1, 0).
Proof.
  unfold directions. repeat rewrite ?elem_of_cons, ?elem_of_nil. tauto.
Qed.

Lemma shuffle_inner n g0 ds st :
  NoDup (concat g0) -> shuffle_inv n g0 st ->
  parity_test n st.1.1 = parity_test n g0 ->
  (forall d, d ∈ ds -> d ∈ directions) ->
  (exists d, d ∈ ds /\ in_bounds n (st.1.2 + d.1) (st.2 + d.2) = true) ->
  exists st', for_each ds (shuffle_try n) st = Ok (Exit st') /\
    shuffle_inv n g0 st' /\ parity_test n st'.1.1 = parity_test n g0 /\
    Z.abs (st'.1.2 - st.1.2) + Z.abs (st'.2 - st.2) = 1.
Proof.
  destruct st as [[g br] bc]. simpl.
  intros Hnd0 (Hwf & Hperm & Hb & H0) Hpar. simpl in *.
  induction ds as [|d ds IH]; intros Hunit (d0 & Hd0 & Hin0);
    [by apply elem_of_nil in Hd0|].
  destruct (shuffle_try_step n d g br bc Hwf Hb) as [Hout Hin].
  destruct (in_bounds n (br + d.1) (bc + d.2)) eqn:E.
  - destruct (Hin eq_refl) as (g2 & Htry & Hwf2 & Hc2).
    rewrite (for_each_cons_exit _ _ _ _ _ Htry).
    eexists. split; [done|]. simpl.
    apply in_bounds_inb in E.
    assert (d ∈ directions) as Hd by (apply Hunit; left).
    assert (forall q, inb n q ->
              cell g2 q = cell g (transp (br, bc) (br + d.1, bc + d.2) q)) as Ht.
    { intros q Hq. rewrite Hc2 by done. unfold transp.
      repeat case_decide; congruence. }
    split; [|split].
    + split; [done|]. split; [|split; [done|]]; simpl.
      * rewrite <- Hperm.
        by apply (cells_transp_perm n g g2 (br, bc) (br + d.1, bc + d.2)).
      * rewrite Hc2 by done. by rewrite decide_True.
    + rewrite <- Hpar.
      apply (slide_parity n g g2 (br, bc) (br + d.1, bc + d.2)); try done.
      * by rewrite Hperm.
      * apply elem_of_directions in Hd. unfold adjacent. simpl.
        destruct Hd as [-> | [-> | [-> | ->]]]; simpl; lia.
    + apply elem_of_directions in Hd.
      destruct Hd as [-> | [-> | [-> | ->]]]; simpl; lia.
  - rewrite (for_each_cons_next _ _ _ _ _ (Hout eq_refl)).
    apply IH; [by intros; apply Hunit; right|].
    exists d0. split; [|done].
    apply elem_of_cons in Hd0 as [->|Hd0]; [congruence|done].
Qed.

Lemma shuffle_fair s rnd :
  fair rnd -> 2 <= size s ->
  wf (size s) (grid s) -> NoDup (concat (grid s)) ->
  inb (size s) (blank_pos s) -> cell (grid s) (blank_pos s) = 0 ->
  exists g b, _shuffle_puzzle s rnd = Ok g /\ wf (size s) g /\
    concat g ≡ₚ concat (grid s) /\
    parity_test (size s) g = parity_test (size s) (grid s) /\
    inb (size s) b /\ cell g b = 0 /\
    (b.1 + b.2) mod 2 = ((blank_pos s).1 + (blank_pos s).2) mod 2.
Proof.
  intros Hfair Hn Hwf Hnd Hb H0. unfold _shuffle_puzzle.
  destruct (blank_pos s) as [br bc] eqn:Ebp. simpl.
  edestruct (for_each_seq_inv (shuffle_inv_fair (size s) (grid s) (br, bc)))
    as (st' & -> & Hst'); [| |].
  - split; [by split_and!|]. split; [done|]. simpl. f_equal. lia.
  - intros i st _ ((Hwf1 & Hperm1 & Hb1 & H01) & Hpar1 & Hev1).
    destruct (shuffle_inner (size s) (grid s) (rnd i directions) st)
      as (st2 & -> & Hinv2 & Hpar2 & Hstep); [done|done|done| | |].
    + intros d Hd. by rewrite (Hfair i directions) in Hd.
    + destruct st as [[g1 br1] bc1]. simpl in *. unfold inb in Hb1. simpl in Hb1.
      destruct (decide (bc1 + 1 < size s)).
      * exists (0, 1). split; [rewrite (Hfair i directions); by left|].
        apply in_bounds_inb. unfold inb. simpl. lia.
      * exists (0, -1). split; [rewrite (Hfair i directions); right; by left|].
        apply in_bounds_inb. unfold inb. simpl. lia.
    + simpl. exists st2. split; [done|]. split; [done|]. split; [done|].
      rewrite <- Hev1.
      destruct st as [[g1 br1] bc1], st2 as [[g2 br2] bc2]. simpl in *.
      Z.to_euclidean_division_equations. lia.
  - destruct st' as [[g b1] b2]. simpl.
    destruct Hst' as ((Hwf' & Hperm' & Hb' & H0') & Hpar' & Hev'). simpl in *.
    exists g, (b1, b2). split; [done|]. split_and!; try done. simpl.
    rewrite <- Hev'. rewrite Z2Nat.id by nia.
    Z.to_euclidean_division_equations. nia.
Qed.

Lemma generate_fair s rnd :
  fair rnd -> 2 <= size s ->
  exists g1 g2 s',
    grid_set (solved_grid (size s)) (size s - 1) (size s - 1) 0 = Ok g1 /\
    _shuffle_puzzle (with_blank_pos (with_grid s g1) (size s - 1, size s - 1)) rnd
      = Ok g2 /\
    _check_solvability (with_grid s g2) = Ok true /\
    generate_solvable_puzzle s rnd = Ok s' /\ grid s' = g2 /\
    inb (size s) (blank_pos s') /\ cell g2 (blank_pos s') = 0 /\
    ((blank_pos s').1 + (blank_pos s').2) mod 2 = 0.
Proof.
  intros Hfair Hn. unfold generate_solvable_puzzle. cbv zeta.
  cbn [size grid with_grid with_blank_pos].
  destruct (solved_board (size s)) as (g1 & Hg1 & Hwf1 & Hperm1 & Hc1); [lia|].
  rewrite Hg1. simpl bind. exists g1.
  destruct (target_board_parity (size s) g1) as [_ Hpar1]; [lia|done|done|].
  pose proof (perm_NoDup _ _ Hperm1) as Hnd1.
  set (s1 := with_blank_pos (with_grid (with_grid s (solved_grid (size s))) g1)
               (size s - 1, size s - 1)).
  change (with_blank_pos (with_grid s g1) (size s - 1, size s - 1)) with s1.
  destruct (shuffle_fair s1 rnd) as (g2 & b & Hsh & Hwf2 & Hperm2 & Hpar2 & Hb & Hb0 & Hev);
    [done|done|done|done|unfold inb; simpl; lia| |].
  { simpl. rewrite Hc1 by (unfold inb; simpl; lia). by rewrite decide_True. }
  change (size s1) with (size s) in *. change (grid s1) with g1 in *.
  change (blank_pos s1) with (size s - 1, size s - 1) in Hev. simpl in Hev.
  rewrite Hsh. simpl bind. exists g2.
  assert (NoDup (concat g2)) as Hnd2 by (by rewrite Hperm2).
  assert (_check_solvability (with_blank_pos (with_grid s1 g2) b) = Ok true)
    as Hchk.
  { rewrite check_solvability_spec by done.
    change (parity_test _ _) with (parity_test (size s) g2).
    by rewrite Hpar2, Hpar1. }
  rewrite (find_blank_position_perm (with_grid s1 g2) b) by done.
  simpl bind. rewrite Hchk. simpl.
  eexists. split; [done|]. split; [done|]. split.
  { rewrite (check_solvability_spec (with_grid s g2)) by done.
    change (parity_test _ _) with (parity_test (size s) g2).
    by rewrite Hpar2, Hpar1. }
  split; [done|]. simpl. split_and!; try done.
  rewrite Hev. replace (size s - 1 + (size s - 1)) with ((size s - 1) * 2) by lia.
  apply Z_mod_mult.
Qed.

(** ** The blank scan, the repair step and the movable tiles *)

Lemma first_blank_first n g p :
  0 <= n -> first_blank n g = Some p ->
  inb n p /\ cell g p = 0 /\
  forall q, inb n q -> cell g q = 0 -> rank n p <= rank n q.
Proof.
  intros Hn Hp. unfold first_blank in Hp.
  destruct (head_filter_Some _ _ _ Hp) as (l1 & l2 & E & Hl1).
  assert (p ∈ filter (fun p => cell g p = 0) (positions n)) as Hin.
  { destruct (filter _ _); [done|]. injection Hp as ->. left. }
  apply list_elem_of_filter in Hin as [H0 Hin%elem_of_positions].
  split_and!; [done..|]. intros q Hq Hq0.
  apply elem_of_positions in Hq. rewrite E in Hq.
  apply elem_of_app in Hq as [Hq|Hq].
  { rewrite Forall_forall in Hl1. by destruct (Hl1 q Hq). }
  apply elem_of_cons in Hq as [-> |Hq]; [lia|].
  apply list_elem_of_lookup in Hq as [k Hk].
  assert (positions n !! length l1 = Some p) as Ep
    by (rewrite E; apply list_lookup_middle; done).
  assert (positions n !! (length l1 + S k)%nat = Some q) as Eq.
  { rewrite E, lookup_app_r by lia.
    replace (length l1 + S k - length l1)%nat with (S k) by lia. done. }
  apply positions_lookup_rank in Ep, Eq; lia.
Qed.

Lemma first_blank_none n g :
  first_blank n g = None -> forall q, inb n q -> cell g q <> 0.
Proof.
  unfold first_blank. intros E q Hq H0.
  assert (q ∈ filter (fun p => cell g p = 0) (positions n)) as Hin
    by (apply list_elem_of_filter; split; [done|by apply elem_of_positions]).
  destruct (filter _ _); [by apply elem_of_nil in Hin|done].
Qed.

Lemma adjacent_neighbours p b : adjacent p b <-> p ∈ neighbours b.
Proof.
  unfold neighbours, directions, adjacent. destruct p as [r c], b as [br bc].
  simpl. rewrite !elem_of_cons, elem_of_nil. split.
  - intros H.
    assert ((r = br + 0 /\ c = bc + 1) \/ (r = br + 0 /\ c = bc + -1) \/
            (r = br + 1 /\ c = bc + 0) \/ (r = br + -1 /\ c = bc + 0))
      as [[-> ->]|[[-> ->]|[[-> ->]| [-> ->]]]] by lia; tauto.
  - intros [H|[H|[H|[H|[]]]]]; injection H as -> ->; lia.
Qed.

Lemma NoDup_neighbours b : NoDup (neighbours b).
Proof.
  unfold neighbours, directions. destruct b as [br bc]. simpl.
  repeat (apply NoDup_cons; split;
    [rewrite ?elem_of_cons, elem_of_nil;
     intros H; repeat (destruct H as [H|H]; [injection H; lia|]); done|]).
  apply NoDup_nil_2.
Qed.

Lemma neighbours_on_board n b :
  inb n b ->
  Z.of_nat (length (filter (inb n) (neighbours b)))
  = Z.b2z (0 <? b.1) + Z.b2z (b.1 <? n - 1)
    + Z.b2z (0 <? b.2) + Z.b2z (b.2 <? n - 1).
Proof.
  unfold neighbours, directions, inb. destruct b as [br bc]. simpl.
  intros Hb. rewrite !filter_cons, filter_nil.
  repeat case_decide; simpl in *;
    destruct (0 <? br) eqn:E1, (br <? n - 1) eqn:E2,
             (0 <? bc) eqn:E3, (bc <? n - 1) eqn:E4; simpl; lia.
Qed.

Lemma elem_of_movable_tiles s p :
  wf (size s) (grid s) -> NoDup (concat (grid s)) ->
  inb (size s) (blank_pos s) -> cell (grid s) (blank_pos s) = 0 ->
  p ∈ movable_tiles s <-> inb (size s) p /\ adjacent p (blank_pos s).
Proof.
  intros Hwf Hnd Hb H0. unfold movable_tiles.
  rewrite list_elem_of_filter, elem_of_positions.
  rewrite can_move_tile_spec by done. destruct p as [r c]. simpl.
  split.
  - intros [E Hp]. injection E as E. apply bool_decide_eq_true in E. tauto.
  - intros [Hp Hadj]. split; [|done]. f_equal. apply bool_decide_eq_true.
    split_and!; [done| |done]. intros Hc.
    assert ((r, c) = blank_pos s) as E
      by (apply (cell_inj (size s) (grid s)); congruence).
    rewrite E in Hadj. unfold adjacent in Hadj. lia.
Qed.

Lemma Inv_swapped : Inv (game EASY board_swapped (2, 2) 0).
Proof.
  constructor; simpl; [done|apply wf_3x3| |unfold inb; simpl; lia|done].
  apply (bool_decide_unpack _). by vm_compute.
Qed.

Lemma Inv_unsolved : Inv (game EASY board_unsolved (2, 1) 0).
Proof.
  constructor; simpl; [done|apply wf_3x3| |unfold inb; simpl; lia|done].
  apply (bool_decide_unpack _). by vm_compute.
Qed.

(** ** The blank scans of the test script *)

Lemma row_scan {S : Type} n g (mark : Z * Z -> S) row cs (st : S) :
  wf n g -> 0 <= row < n -> (forall c, c ∈ cs -> 0 <= c < n) ->
  for_each cs (fun c st =>
    v <- grid_get g row c ;;
    if v =? 0 then Ok (Exit (mark (row, c))) else Ok (Next st)) st
  = Ok (match head (filter (fun c => cell g (row, c) = 0) cs) with
        | Some c => Exit (mark (row, c))
        | None => Next st
        end).
Proof.
  intros Hwf Hrow. induction cs as [|c cs IH]; intros Hcs; [done|]. simpl.
  assert (inb n (row, c)) as Hin by (split; simpl; [done|apply Hcs; left]).
  rewrite (grid_get_wf n g (row, c) Hwf Hin : grid_get _ row c = _).
  simpl. destruct (cell g (row, c) =? 0) eqn:E; simpl.
  - rewrite filter_cons_True by lia. done.
  - rewrite filter_cons_False by lia. apply IH. intros; apply Hcs. by right.
Qed.

Lemma last_blank_loop {S : Type} n g (mark : Z * Z -> S) rows (st : S) :
  wf n g -> (forall r, r ∈ rows -> 0 <= r < n) ->
  for_each rows (fun row st =>
    f <- for_each (range 0 n) (fun c st =>
           v <- grid_get g row c ;;
           if v =? 0 then Ok (Exit (mark (row, c))) else Ok (Next st)) st ;;
    match f with
    | Exit st => Ok (@Next unit _ st)
    | Next st => Ok (Next st)
    end) st
  = Ok (Next (last_blank n g mark st rows)).
Proof.
  intros Hwf. revert st. induction rows as [|r rows IH]; intros st Hrows;
    [done|].
  simpl. rewrite (row_scan n g mark r) by
    (done || (apply Hrows; left) || (intros c Hc; by apply elem_of_range)).
  simpl. destruct (head _); simpl; apply IH; intros; apply Hrows; by right.
Qed.

Lemma head_filter_seqZ (P : Z -> Prop) `{!forall x, Decision (P x)} a k c :
  head (filter P (seqZ a k)) = Some c ->
  P c /\ a <= c < a + k /\ forall c', a <= c' < a + k -> P c' -> c <= c'.
Proof.
  intros Hc. destruct (head_filter_Some _ _ _ Hc) as (l1 & l2 & E & Hl1).
  assert (c ∈ filter P (seqZ a k)) as Hin.
  { destruct (filter _ _); [done|]. injection Hc as ->. left. }
  apply list_elem_of_filter in Hin as [HP Hin%elem_of_seqZ].
  split_and!; [done|lia|lia|]. intros c' Hc' HP'.
  assert (seqZ a k !! length l1 = Some c) as Ec
    by (rewrite E; by apply list_lookup_middle).
  apply lookup_seqZ in Ec as [-> _].
  assert (c' ∈ seqZ a k) as Hin' by (apply elem_of_seqZ; lia).
  apply list_elem_of_lookup in Hin' as [i Hi].
  pose proof Hi as Hi'. apply lookup_seqZ in Hi' as [-> _].
  assert (~ (i < length l1)%nat); [|lia]. intros Hlt.
  rewrite E, lookup_app_l in Hi by done.
  rewrite Forall_forall in Hl1. apply (Hl1 (a + Z.of_nat i)); [|done].
  by apply list_elem_of_lookup_2 in Hi.
Qed.

Lemma head_filter_None {A} (P : A -> Prop) `{!forall x, Decision (P x)} l :
  head (filter P l) = None -> forall x, x ∈ l -> ~ P x.
Proof.
  intros E x Hx HP.
  assert (x ∈ filter P l) as Hin by (by apply list_elem_of_filter).
  destruct (filter P l); [by apply elem_of_nil in Hin|done].
Qed.

Lemma last_blank_first {S : Type} n g (mark : Z * Z -> S) (st : S) :
  0 <= n -> blanks_in_one_row n g ->
  last_blank n g mark st (range 0 n)
  = match first_blank n g with
    | Some p => mark p
    | None => st
    end.
Proof.
  intros Hn Hrow. unfold last_blank.
  destruct (first_blank n g) as [p|] eqn:E.
  - destruct (first_blank_first _ _ _ Hn E) as (Hp & Hp0 & Hmin).
    assert (forall rows st, (forall r, r ∈ rows -> 0 <= r < n) ->
      foldl (fun st row =>
               match head (filter (fun c => cell g (row, c) = 0) (range 0 n))
               with Some c => mark (row, c) | None => st end) st rows
      = if decide (p.1 ∈ rows) then mark p else st) as Hfold.
    { intros rows. induction rows as [|r rows IH]; intros st' Hrows; cbn [foldl].
      - rewrite decide_False; [done|]. apply not_elem_of_nil.
      - rewrite IH by (intros; apply Hrows; by right).
        assert (0 <= r < n) as Hr by (apply Hrows; left).
        destruct (head _) as [c|] eqn:Ec.
        + apply head_filter_seqZ in Ec as (Hc0 & Hc & Hfirst).
          assert (r = p.1) as ->
            by (apply (Hrow (r, c) p); [split; simpl; lia|done..]).
          assert (c = p.2) as ->.
          { specialize (Hmin (p.1, c)). unfold rank in Hmin. simpl in Hmin.
            destruct Hp as [_ Hp2].
            specialize (Hfirst p.2). destruct p as [pr pc]. simpl in *.
            assert (c <= pc) by (apply Hfirst; [lia|done]).
            assert (pr * n + pc + 1 <= pr * n + c + 1)
              by (apply Hmin; [split; simpl; lia|done]).
            lia. }
          destruct p as [pr pc]. simpl in *.
          destruct (decide (pr ∈ pr :: rows)) as [_|Hn'];
            [by destruct (decide _)|].
          destruct Hn'. left.
        + assert (r <> p.1) as Hne.
          { intros ->. apply (head_filter_None _ _ Ec p.2).
            - apply elem_of_range. destruct Hp. lia.
            - by destruct p. }
          destruct (decide (p.1 ∈ rows)) as [Hin|Hin].
          * rewrite decide_True by (by right). done.
          * rewrite decide_False; [done|].
            intros [?|?]%elem_of_cons; done. }
    rewrite Hfold by (intros r Hr%elem_of_range; lia).
    rewrite decide_True; [done|]. apply elem_of_range. destruct Hp. lia.
  - pose proof (first_blank_none _ _ E) as Hno.
    assert (forall rows st, (forall r, r ∈ rows -> 0 <= r < n) ->
      foldl (fun st row =>
               match head (filter (fun c => cell g (row, c) = 0) (range 0 n))
               with Some c => mark (row, c) | None => st end) st rows
      = st) as Hfold.
    { intros rows. induction rows as [|r rows IH]; intros st' Hrows; cbn [foldl];
        [done|].
      rewrite IH by (intros; apply Hrows; by right).
      assert (0 <= r < n) as Hr by (apply Hrows; left).
      destruct (head _) as [c|] eqn:Ec; [|done].
      apply head_filter_seqZ in Ec as (Hc0 & Hc & _).
      destruct (Hno (r, c)); [split; simpl; lia|done]. }
    apply Hfold. intros r Hr%elem_of_range. lia.
Qed.

Lemma NoDup_blanks_in_one_row n g :
  wf n g -> NoDup (concat g) -> blanks_in_one_row n g.
Proof.
  intros Hwf Hnd p q Hp Hq Hp0 Hq0.
  by rewrite (cell_inj n g p q Hwf Hnd Hp Hq) by congruence.
Qed.

Lemma Inv_blanks_in_one_row s : Inv s -> blanks_in_one_row (size s) (grid s).
Proof.
  intros [_ Hwf Hperm _ _].
  apply NoDup_blanks_in_one_row; [done|by apply (perm_NoDup (size s))].
Qed.

Lemma Inv_solved4 : Inv (game MEDIUM board_solved4 (3, 3) 0).
Proof.
  constructor; simpl; [done|split; [done|by repeat constructor]|
                       |unfold inb; simpl; lia|done].
  apply (bool_decide_unpack _). by vm_compute.
Qed.

Lemma wf_length n g : 0 <= n -> wf n g -> Z.of_nat (length g) = n.
Proof. intros Hn [Hlen _]. lia. Qed.

(** The term a stuck computation is waiting for. *)
Ltac head_scrutinee t :=
  lazymatch t with
  | match ?x with _ => _ end => head_scrutinee x
  | _ => t
  end.

(** ** Looking a difficulty up by its value *)


(** * Properties of the operations *)

(** C1: for every difficulty (N = 3, 4, 5, 6) and whatever order the
    random source returns at each step of the shuffle, construction and
    regeneration succeed and leave a board on which [_check_solvability]
    answers true. *)
Theorem generate_always_solvable (d : Difficulty) (rnd : rand) :
  (exists s, init d rnd = Ok s /\ size s = value d /\
     _check_solvability s = Ok true) /\
  (forall s0, exists s,
     generate_solvable_puzzle (with_difficulty s0 d) rnd = Ok s /\
     size s = value d /\ _check_solvability s = Ok true).
Proof.
  split.
  - destruct (init_inv d rnd) as (s & Hs & HI & Hd & _ & Hchk).
    exists s. split; [done|]. split; [|done]. by rewrite (inv_size s HI), Hd.
  - intros s0.
    destruct (generate_inv (with_difficulty s0 d) rnd) as (s & Hs & HI & Hd & _ & Hchk);
      [done|].
    exists s. split; [done|]. split; [|done]. by rewrite (inv_size s HI), Hd.
Qed.

(** C2: [_check_solvability] works on the row-major listing of the cells
    with the blank left out, counts its inversions (the pairs i < j of
    positions whose values are out of order), and answers: for odd N, true
    exactly when the count is even; for even N, true exactly when the count
    plus N - blankRow is odd, blankRow being the 0-based row of the blank.
    The 3x3 board [[1,2,3],[4,5,6],[7,8,0]] is reported solvable and
    [[1,2,3],[4,5,6],[8,7,0]] unsolvable. *)
Theorem check_solvability_parity :
  (forall n g, wf n g ->
     Forall2 (fun p v => grid_get g p.1 p.2 = Ok v) (positions n) (concat g) /\
     flat_puzzle g = filter (fun v => v <> 0) (concat g)) /\
  (forall s, Z.odd (size s) = true ->
     _check_solvability s
     = Ok (Z.even (Z.of_nat (length (inversion_pairs (flat_puzzle (grid s))))))) /\
  (forall s b, Z.odd (size s) = false ->
     wf (size s) (grid s) -> inb (size s) b ->
     grid_get (grid s) b.1 b.2 = Ok 0 ->
     (forall q, inb (size s) q -> grid_get (grid s) q.1 q.2 = Ok 0 -> q = b) ->
     _check_solvability s
     = Ok (Z.odd (Z.of_nat (length (inversion_pairs (flat_puzzle (grid s))))
                  + (size s - b.1)))) /\
  _check_solvability (game EASY board_solved (2, 2) 0) = Ok true /\
  _check_solvability (game EASY board_swapped (2, 2) 0) = Ok false.
Proof.
  split; [|split; [|split; [|done]]].
  - intros n g Hwf. split; [by apply concat_row_major|done].
  - intros s Hodd. unfold _check_solvability.
    rewrite count_inversions_spec. simpl bind.
    rewrite (proj1 (parity_bools (size s))), Hodd.
    by rewrite (proj2 (parity_bools _)), inversions_pairs.
  - intros s b Heven Hwf Hb Hb0 Huniq.
    rewrite check_solvability_spec by done. unfold parity_test.
    rewrite (proj1 (parity_bools (size s))), Heven.
    rewrite (first_blank_unique (size s) (grid s) b); [|done| |].
    + simpl. by rewrite (proj1 (parity_bools _)), inversions_pairs.
    + by apply (cell_get (size s)).
    + intros q Hq Hq0. apply Huniq; [done|]. by apply (cell_get (size s)).
Qed.

Lemma check_solvability_parity_witness :
  _check_solvability (game EASY board_swapped (2, 2) 0)
  = Ok (Z.even (Z.of_nat (length (inversion_pairs (flat_puzzle board_swapped))))) /\
  _check_solvability (game MEDIUM board_solved4 (3, 3) 0) = Ok true.
Proof.
  destruct check_solvability_parity as (_ & Hodd & Heven & _).
  split.
  - exact (Hodd (game EASY board_swapped (2, 2) 0) eq_refl).
  - refine (Heven (game MEDIUM board_solved4 (3, 3) 0) (3, 3) eq_refl _ _ eq_refl _).
    + split; [done|]. by repeat constructor.
    + unfold inb; simpl; lia.
    + intros [r c] [Hr Hc] Hq. simpl in *.
      assert (r = 0 \/ r = 1 \/ r = 2 \/ r = 3) as Hrs by lia.
      assert (c = 0 \/ c = 1 \/ c = 2 \/ c = 3) as Hcs by lia.
      destruct Hrs as [-> | [-> | [-> | ->]]], Hcs as [-> | [-> | [-> | ->]]];
        first [done | discriminate Hq].
Defined.

(** C3: after construction followed by any sequence of regenerations,
    difficulty changes and move attempts, with any arguments and any
    behaviour of the random source, no call has raised, the board is N x N
    and holds each value of 0 .. N*N-1 exactly once, and the cell at the
    stored blank position is 0. *)
Theorem board_invariant (d : Difficulty) (rnd : rand) (cs : list call) :
  exists s,
    (s0 <- init d rnd ;; run s0 cs) = Ok s /\
    wf (size s) (grid s) /\
    concat (grid s) ≡ₚ seqZ 0 (size s * size s) /\
    (forall v, 0 <= v < size s * size s -> occurrences v (grid s) = 1%nat) /\
    (forall v, occurrences v (grid s) <> 0%nat -> 0 <= v < size s * size s) /\
    grid_get (grid s) (blank_pos s).1 (blank_pos s).2 = Ok 0 /\
    Inv s.
Proof.
  destruct (init_inv d rnd) as (s0 & -> & HI0 & _). simpl.
  destruct (run_inv s0 cs HI0) as (s & -> & HI).
  exists s. split; [done|]. split; [apply HI|]. split; [apply HI|].
  split; [by intros; apply Inv_occurrences|]. split; [|split; [apply HI|done]].
  intros v Hv. unfold occurrences in Hv.
  destruct (filter _ _) as [|x l] eqn:E; [done|].
  assert (x ∈ filter (fun x => x = v) (concat (grid s))) as Hx by (rewrite E; left).
  apply list_elem_of_filter in Hx as [-> Hx].
  rewrite (inv_perm s HI), elem_of_seqZ in Hx. lia.
Qed.

(** C4: in a state whose grid is N x N and whose blank position lies on
    the board (every state the core can be in), a move that
    [can_move_tile] accepts puts the tile of (row, col) into the old blank
    cell, writes 0 at (row, col), leaves every other cell alone, records
    (row, col) as the blank position, adds exactly 1 to the move counter and
    returns true; and whatever the arguments, a call to [move_tile] changes
    the counter by 0 (rejected) or by 1 (accepted), never by anything else,
    so the counter never decreases. *)
Theorem move_tile_accepted s row col :
  wf (size s) (grid s) -> inb (size s) (blank_pos s) ->
  can_move_tile s row col = Ok true ->
  (exists s',
    move_tile s row col = Ok (s', true) /\
    grid_get (grid s') (blank_pos s).1 (blank_pos s).2
      = grid_get (grid s) row col /\
    grid_get (grid s') row col = Ok 0 /\
    (forall r c, inb (size s) (r, c) -> (r, c) <> (row, col) ->
       (r, c) <> blank_pos s ->
       grid_get (grid s') r c = grid_get (grid s) r c) /\
    blank_pos s' = (row, col) /\
    moves (stats s') = moves (stats s) + 1 /\
    size s' = size s /\ difficulty s' = difficulty s) /\
  (forall r c, exists s' b,
    move_tile s r c = Ok (s', b) /\
    moves (stats s') = moves (stats s) + (if b then 1 else 0) /\
    moves (stats s) <= moves (stats s')).
Proof.
  intros Hwf Hb Hcan. split.
  - destruct (move_tile_accept s row col Hwf Hb Hcan) as (g' & -> & Hwf' & Hc).
    rewrite can_move_tile_spec in Hcan by done. injection Hcan as Hcan.
    apply bool_decide_eq_true in Hcan as (Hin & Hnz & Hadj).
    assert (blank_pos s <> (row, col)) as Hne.
    { intros E. rewrite E in Hadj. unfold adjacent in Hadj. simpl in Hadj. lia. }
    eexists. split; [done|]. simpl. split_and!; try done.
    + rewrite (grid_get_wf _ _ _ Hwf' Hb), Hc by done.
      rewrite decide_False, decide_True by done.
      by rewrite (grid_get_wf _ _ (row, col) Hwf Hin : grid_get _ row col = _).
    + rewrite (grid_get_wf _ _ (row, col) Hwf' Hin : grid_get _ row col = _).
      rewrite Hc by done. by rewrite decide_True.
    + intros r c Hrc Hn1 Hn2.
      rewrite (grid_get_wf _ _ (r, c) Hwf' Hrc : grid_get _ r c = _).
      rewrite (grid_get_wf _ _ (r, c) Hwf Hrc : grid_get _ r c = _).
      rewrite Hc by done. by rewrite !decide_False.
  - intros r c. pose proof (can_move_tile_spec s r c Hwf) as Hrc.
    destruct (bool_decide _).
    + destruct (move_tile_accept s r c Hwf Hb Hrc) as (g' & -> & _).
      eexists _, true. split; [done|]. simpl. lia.
    + rewrite (move_tile_reject s r c Hrc). exists s, false.
      split; [done|]. lia.
Qed.

Lemma move_tile_accepted_witness :
  exists s', move_tile (game EASY board_centre (1, 1) 0) 0 1 = Ok (s', true) /\
    moves (stats s') = 1.
Proof.
  destruct (move_tile_accepted (game EASY board_centre (1, 1) 0) 0 1)
    as [(s' & Hmv & _ & _ & _ & _ & Hm & _) _].
  - apply wf_3x3.
  - unfold inb. simpl. lia.
  - reflexivity.
  - exists s'. split; [exact Hmv|exact Hm].
Defined.

(** C5: a move that [can_move_tile] rejects returns false and hands back
    the very same state: board, blank position and move counter are
    untouched, and nothing is raised. *)
Theorem move_tile_rejected s row col :
  can_move_tile s row col = Ok false ->
  exists s', move_tile s row col = Ok (s', false) /\
    grid s' = grid s /\ blank_pos s' = blank_pos s /\
    moves (stats s') = moves (stats s) /\ s' = s.
Proof.
  intros Hcan. exists s. by rewrite (move_tile_reject s row col Hcan).
Qed.

Lemma move_tile_rejected_witness :
  exists s', move_tile (game EASY board_centre (1, 1) 7) 0 0 = Ok (s', false) /\
    grid s' = board_centre /\ blank_pos s' = (1, 1) /\ moves (stats s') = 7.
Proof.
  destruct (move_tile_rejected (game EASY board_centre (1, 1) 7) 0 0 eq_refl)
    as (s' & Hmv & Hg & Hb & Hm & _).
  exists s'. split; [exact Hmv|]. split; [exact Hg|]. split; [exact Hb|exact Hm].
Defined.

(** C6: on a well-formed board [can_move_tile] answers, without touching
    the state, and answers true exactly when (row, col) lies inside the
    board, holds a tile rather than the blank, and is at Manhattan distance
    1 from the stored blank position.  On [[1,2,3],[4,0,5],[6,7,8]] with
    the blank at (1,1) the tiles that can move are exactly those at (0,1),
    (1,0), (1,2) and (2,1); (0,0), (2,2) and (1,1) cannot. *)
Theorem can_move_tile_iff :
  (forall s row col,
     wf (size s) (grid s) ->
     exists b, can_move_tile s row col = Ok b /\
       (b = true <->
        (0 <= row < size s /\ 0 <= col < size s) /\
        (exists v, grid_get (grid s) row col = Ok v /\ v <> 0) /\
        Z.abs (row - (blank_pos s).1) + Z.abs (col - (blank_pos s).2) = 1)) /\
  (forall row col,
     can_move_tile (game EASY board_centre (1, 1) 0) row col = Ok true <->
     (row, col) ∈ [(0, 1); (1, 0); (1, 2); (2, 1)]) /\
  can_move_tile (game EASY board_centre (1, 1) 0) 0 0 = Ok false /\
  can_move_tile (game EASY board_centre (1, 1) 0) 2 2 = Ok false /\
  can_move_tile (game EASY board_centre (1, 1) 0) 1 1 = Ok false.
Proof.
  assert (forall s row col,
     wf (size s) (grid s) ->
     exists b, can_move_tile s row col = Ok b /\
       (b = true <->
        (0 <= row < size s /\ 0 <= col < size s) /\
        (exists v, grid_get (grid s) row col = Ok v /\ v <> 0) /\
        Z.abs (row - (blank_pos s).1) + Z.abs (col - (blank_pos s).2) = 1))
    as Hgen.
  { intros s row col Hwf. eexists. split; [by apply can_move_tile_spec|].
    rewrite bool_decide_eq_true. unfold adjacent. split.
    - intros (Hin & Hnz & Hadj). split; [exact Hin|]. split; [|exact Hadj].
      exists (cell (grid s) (row, col)). split; [|done].
      by apply (grid_get_wf (size s) _ (row, col)).
    - intros (Hin & (v & Hv & Hnz) & Hadj). split; [exact Hin|].
      split; [|exact Hadj].
      apply (cell_get (size s) (grid s) (row, col)) in Hv; [congruence|done..]. }
  split; [exact Hgen|]. split; [|done].
  intros row col.
  destruct (Hgen (game EASY board_centre (1, 1) 0) row col (wf_3x3 _ _ _ _ _ _ _ _ _))
    as (b & Hb & Hiff).
  rewrite Hb. simpl in Hiff. split.
  - intros [= ->]. destruct Hiff as [Hiff _].
    destruct (Hiff eq_refl) as ((Hr & Hc) & _ & Hadj).
    assert ((row = 0 /\ col = 1) \/ (row = 1 /\ col = 0) \/
            (row = 1 /\ col = 2) \/ (row = 2 /\ col = 1)) as Hcases by lia.
    destruct Hcases as [[-> ->]|[[-> ->]|[[-> ->]|[-> ->]]]];
      repeat (first [by left | right]).
  - intros Hin. f_equal. apply Hiff.
    rewrite !elem_of_cons, elem_of_nil in Hin.
    destruct Hin as [[= -> ->]|[[= -> ->]|[[= -> ->]|[[= -> ->]|[]]]]];
      (split; [lia|]; split; [eexists; split; [reflexivity|done]|lia]).
Qed.

Lemma can_move_tile_iff_witness :
  exists b, can_move_tile (game EASY board_centre (1, 1) 0) 0 1 = Ok b.
Proof.
  destruct can_move_tile_iff as [Hgen _].
  destruct (Hgen (game EASY board_centre (1, 1) 0) 0 1 (wf_3x3 _ _ _ _ _ _ _ _ _))
    as (b & Hb & _).
  exists b. exact Hb.
Defined.

(** C7: on a well-formed board [is_solved] answers, without touching the
    state, and answers true exactly when every cell but the last holds its
    1-based row-major position row*N + col + 1 and the last cell holds 0.
    The scan stops at the first mismatch: a board whose first cell is
    already wrong is reported unsolved even when its later rows are
    missing, while a board that matches so far is read further.
    [[1,2,3],[4,5,6],[7,8,0]] is solved and [[1,2,3],[4,5,6],[7,0,8]] is
    not. *)
Theorem is_solved_iff :
  (forall s,
     wf (size s) (grid s) -> 1 <= size s ->
     exists b, is_solved s = Ok b /\
       (b = true <->
        forall row col, 0 <= row < size s -> 0 <= col < size s ->
          grid_get (grid s) row col
          = Ok (if decide ((row, col) = (size s - 1, size s - 1)) then 0
                else row * size s + col + 1))) /\
  is_solved (game EASY [[2; 1; 3]] (0, 0) 0) = Ok false /\
  is_solved (game EASY [[1; 2; 3]] (0, 0) 0) = Raise IndexError /\
  is_solved (game EASY board_solved (2, 2) 0) = Ok true /\
  is_solved (game EASY board_unsolved (2, 1) 0) = Ok false.
Proof.
  split; [|done].
  intros s Hwf Hn. eexists. split; [by apply is_solved_spec|].
  rewrite bool_decide_eq_true, Forall_forall. split.
  - intros H row col Hr Hc.
    rewrite (grid_get_wf (size s) (grid s) (row, col) Hwf (conj Hr Hc)
             : grid_get _ row col = _).
    f_equal. apply H, elem_of_positions. by split.
  - intros H p Hp%elem_of_positions. destruct p as [row col].
    apply (cell_get (size s)); [done..|]. apply H; apply Hp.
Qed.

Lemma is_solved_iff_witness :
  exists b, is_solved (game EASY board_solved (2, 2) 0) = Ok b.
Proof.
  destruct is_solved_iff as [Hgen _].
  destruct (Hgen (game EASY board_solved (2, 2) 0) (wf_3x3 _ _ _ _ _ _ _ _ _))
    as (b & Hb & _); [done|].
  exists b. exact Hb.
Defined.

(** C8: on a board holding each value once and at least two tiles, the
    repair step succeeds and exchanges the first two non-blank cells of the
    row-major scan; every other cell, the blank included, keeps its value;
    the number of inversions changes by exactly one; so the answer of
    [_check_solvability] is negated, and a board reported unsolvable
    becomes one reported solvable. *)
Theorem make_solvable_repairs s :
  wf (size s) (grid s) ->
  concat (grid s) ≡ₚ seqZ 0 (size s * size s) ->
  (2 <= length (flat_puzzle (grid s)))%nat ->
  exists s' p1 p2 rest b,
    _make_solvable s = Ok s' /\
    non_blank (size s) (grid s) = p1 :: p2 :: rest /\
    grid_get (grid s') p1.1 p1.2 = grid_get (grid s) p2.1 p2.2 /\
    grid_get (grid s') p2.1 p2.2 = grid_get (grid s) p1.1 p1.2 /\
    (forall q, inb (size s) q -> q <> p1 -> q <> p2 ->
       grid_get (grid s') q.1 q.2 = grid_get (grid s) q.1 q.2) /\
    (forall q, inb (size s) q -> grid_get (grid s) q.1 q.2 = Ok 0 ->
       q <> p1 /\ q <> p2 /\ grid_get (grid s') q.1 q.2 = Ok 0) /\
    size s' = size s /\ blank_pos s' = blank_pos s /\ stats s' = stats s /\
    Z.abs (Z.of_nat (length (inversion_pairs (flat_puzzle (grid s'))))
           - Z.of_nat (length (inversion_pairs (flat_puzzle (grid s))))) = 1 /\
    _check_solvability s = Ok b /\ _check_solvability s' = Ok (negb b) /\
    (_check_solvability s = Ok false -> _check_solvability s' = Ok true).
Proof.
  intros Hwf Hperm Hlen.
  pose proof (perm_NoDup _ _ Hperm) as Hnd.
  rewrite (flat_puzzle_cells (size s) (grid s) Hwf), length_fmap in Hlen.
  destruct (non_blank (size s) (grid s)) as [|p1 [|p2 rest]] eqn:Hnb;
    [simpl in Hlen; lia..|].
  destruct (make_solvable_spec s p1 p2 rest Hwf Hnb) as (g' & Hms & Hwf' & Hc).
  destruct (repair_p1 (size s) (grid s) p1 p2 rest Hnb) as [Hz1 H1].
  destruct (repair_p2 (size s) (grid s) p1 p2 rest Hnb) as [Hz2 H2].
  destruct (repair_fresh (size s) (grid s) g' p1 p2 rest Hnb Hc) as (Hne & _ & _).
  exists (with_grid s g'), p1, p2, rest, (parity_test (size s) (grid s)).
  simpl. split; [done|]. split; [done|].
  rewrite !(grid_get_wf (size s) g'), !(grid_get_wf (size s) (grid s)) by done.
  split; [|split; [|split; [|split]]].
  - rewrite Hc by done. unfold transp. by rewrite decide_True.
  - rewrite Hc by done. unfold transp.
    by rewrite (decide_False (P := p2 = p1)), decide_True.
  - intros q Hq Hq1 Hq2.
    rewrite (grid_get_wf (size s) g'), (grid_get_wf (size s) (grid s)) by done.
    rewrite Hc by done. unfold transp. by rewrite !decide_False.
  - intros q Hq Hq0. apply (cell_get (size s)) in Hq0; [|done..].
    split; [by intros ->|]. split; [by intros ->|].
    apply (cell_get (size s)); [done..|].
    by apply (repair_zero (size s) (grid s) g' p1 p2 rest).
  - split; [done|]. split; [done|]. split; [done|]. split.
    + rewrite <- !inversions_pairs.
      rewrite (repair_inversions (size s) (grid s) g' p1 p2 rest) by done.
      case_decide; lia.
    + rewrite (check_solvability_spec s), (check_solvability_spec (with_grid s g'))
        by done.
      simpl. rewrite (repair_parity (size s) (grid s) g' p1 p2 rest) by done.
      split; [done|]. split; [done|]. by intros [= ->].
Qed.

Lemma make_solvable_repairs_witness :
  exists s',
    _make_solvable (game EASY board_swapped (2, 2) 0) = Ok s' /\
    _check_solvability s' = Ok true.
Proof.
  destruct (make_solvable_repairs (game EASY board_swapped (2, 2) 0))
    as (s' & p1 & p2 & rest & b & Hms & _ & _ & _ & _ & _ & _ & _ & _ & _ & _ & _ & Hfix).
  - apply wf_3x3.
  - apply (bool_decide_unpack _). by vm_compute.
  - vm_compute. lia.
  - exists s'. split; [exact Hms|]. apply Hfix. reflexivity.
Defined.



(** C10: an accepted move can be taken back.  In a state satisfying the
    invariant, with the blank at (br, bc), if [move_tile] at (row, col)
    returns true then [move_tile] at (br, bc) on the resulting state
    returns true as well and restores the board and the blank position,
    the move counter having grown by exactly 2. *)
Theorem move_tile_reversible s row col s1 :
  Inv s -> move_tile s row col = Ok (s1, true) ->
  exists s2,
    move_tile s1 (blank_pos s).1 (blank_pos s).2 = Ok (s2, true) /\
    grid s2 = grid s /\ blank_pos s2 = blank_pos s /\
    moves (stats s2) = moves (stats s) + 2.
Proof.
  destruct s as [d n g [br bc] st]. intros [Hsz Hwf Hperm Hb Hb0] Hmv.
  simpl in *. apply (cell_get n g (br, bc)) in Hb0; [|done..].
  set (s := {| difficulty := d; size := n; grid := g; blank_pos := (br, bc);
               stats := st |}) in *.
  pose proof (can_move_tile_spec s row col Hwf) as Hcan.
  destruct (bool_decide _) eqn:E.
  2: { rewrite (move_tile_reject s row col Hcan) in Hmv. congruence. }
  apply bool_decide_eq_true in E as (Hin & Hnz & Hadj).
  destruct (move_tile_accept s row col Hwf Hb Hcan) as (g1 & Hmv1 & Hwf1 & Hc1).
  rewrite Hmv1 in Hmv. injection Hmv as <-.
  assert ((br, bc) <> (row, col)) as Hne.
  { intros [= -> ->]. unfold adjacent in Hadj. simpl in Hadj. lia. }
  set (s1 := with_stats _ _).
  assert (can_move_tile s1 br bc = Ok true) as Hcan1.
  { rewrite can_move_tile_spec by done. f_equal. apply bool_decide_eq_true.
    split; [done|]. split.
    - simpl. rewrite Hc1 by done. simpl.
      by rewrite decide_False, decide_True.
    - unfold adjacent in *. simpl in *. lia. }
  destruct (move_tile_accept s1 br bc Hwf1 Hin Hcan1) as (g2 & -> & Hwf2 & Hc2).
  eexists. split; [done|]. simpl. split_and!; [|done|lia].
  apply (wf_ext n); [done..|]. intros q Hq.
  rewrite Hc2 by done. simpl. rewrite !Hc1 by done. simpl.
  repeat case_decide; congruence.
Qed.

Lemma move_tile_reversible_witness :
  exists s2,
    move_tile (game EASY [[1; 0; 3]; [4; 2; 5]; [6; 7; 8]] (0, 1) 1) 1 1
      = Ok (s2, true) /\
    grid s2 = board_centre /\ blank_pos s2 = (1, 1) /\ moves (stats s2) = 2.
Proof.
  exact (move_tile_reversible (game EASY board_centre (1, 1) 0) 0 1
           (game EASY [[1; 0; 3]; [4; 2; 5]; [6; 7; 8]] (0, 1) 1)
           (Inv_centre 0) eq_refl).
Defined.

(** * Further properties *)

(** ** Solvability is kept by every operation *)

(** X1: in a state satisfying the invariant, [move_tile] never changes the
    answer of [_check_solvability], whether the move is accepted or not. *)
Theorem move_tile_keeps_solvability s row col s' b :
  Inv s -> move_tile s row col = Ok (s', b) ->
  exists v, _check_solvability s = Ok v /\ _check_solvability s' = Ok v.
Proof.
  intros HI Hmv. destruct (move_tile_parity s row col s' b HI Hmv) as [HI' Hpar].
  exists (parity_test (size s) (grid s)).
  rewrite (check_solvability_spec s), (check_solvability_spec s')
    by apply HI || apply HI'.
  by rewrite Hpar.
Qed.

Lemma move_tile_keeps_solvability_witness :
  exists v,
    _check_solvability (game EASY board_centre (1, 1) 0) = Ok v /\
    _check_solvability (game EASY [[1; 0; 3]; [4; 2; 5]; [6; 7; 8]] (0, 1) 1)
      = Ok v.
Proof.
  exact (move_tile_keeps_solvability (game EASY board_centre (1, 1) 0) 0 1
           (game EASY [[1; 0; 3]; [4; 2; 5]; [6; 7; 8]] (0, 1) 1) true
           (Inv_centre 0) eq_refl).
Defined.

(** X2: with a random source that returns rearrangements, the shuffle
    alone leaves a board that passes [_check_solvability]; the repair
    branch of [generate_solvable_puzzle] is not taken and the generated
    board is exactly the one [_shuffle_puzzle] returned. *)
Theorem generate_is_shuffle s rnd :
  fair rnd -> 2 <= size s ->
  exists g1 g2 s',
    grid_set (solved_grid (size s)) (size s - 1) (size s - 1) 0 = Ok g1 /\
    _shuffle_puzzle (with_blank_pos (with_grid s g1) (size s - 1, size s - 1)) rnd
      = Ok g2 /\
    _check_solvability (with_grid s g2) = Ok true /\
    generate_solvable_puzzle s rnd = Ok s' /\ grid s' = g2.
Proof.
  intros Hfair Hn.
  destruct (generate_fair s rnd Hfair Hn)
    as (g1 & g2 & s' & H1 & H2 & H3 & H4 & H5 & _).
  by exists g1, g2, s'.
Qed.

Lemma generate_is_shuffle_witness :
  exists g1 g2 s',
    grid_set (solved_grid 3) 2 2 0 = Ok g1 /\
    _shuffle_puzzle (with_blank_pos (with_grid (blank_game EASY 3) g1) (2, 2))
      identity_order = Ok g2 /\
    _check_solvability (with_grid (blank_game EASY 3) g2) = Ok true /\
    generate_solvable_puzzle (blank_game EASY 3) identity_order = Ok s' /\
    grid s' = g2.
Proof.
  apply (generate_is_shuffle (blank_game EASY 3) identity_order).
  - by intros i l.
  - simpl. lia.
Defined.

(** X3: whatever the random source does and whatever calls are made,
    every state reached from construction through regenerations,
    difficulty changes and move attempts is one on which
    [_check_solvability] answers true. *)
Theorem reachable_states_solvable (d : Difficulty) (rnd : rand) (cs : list call) :
  exists s, (s0 <- init d rnd ;; run s0 cs) = Ok s /\
    _check_solvability s = Ok true.
Proof.
  destruct (init_inv d rnd) as (s0 & -> & HI0 & _ & _ & Hchk0). simpl.
  revert s0 HI0 Hchk0. induction cs as [|c cs IH]; intros s0 HI0 Hchk0; simpl.
  - by exists s0.
  - destruct c as [r|d' r|row col]; simpl.
    + destruct (generate_inv s0 r) as (s1 & -> & HI1 & _ & _ & Hchk1);
        [apply HI0|]. by apply IH.
    + destruct (generate_inv (with_difficulty s0 d') r)
        as (s1 & -> & HI1 & _ & _ & Hchk1); [done|]. by apply IH.
    + destruct (move_tile_inv s0 row col HI0) as (s1 & b & Hmv & HI1 & _).
      rewrite Hmv. simpl.
      destruct (move_tile_parity s0 row col s1 b HI0 Hmv) as [_ Hpar].
      apply IH; [done|].
      rewrite check_solvability_spec in * by apply HI0 || apply HI1.
      by rewrite Hpar.
Qed.

(** X4: a board that [is_solved] accepts is one that [_check_solvability]
    accepts. *)
Theorem solved_board_is_solvable s :
  wf (size s) (grid s) -> 1 <= size s -> is_solved s = Ok true ->
  _check_solvability s = Ok true.
Proof.
  intros Hwf Hn Hsolved. rewrite check_solvability_spec by done.
  by rewrite is_solved_parity.
Qed.

Lemma solved_board_is_solvable_witness :
  _check_solvability (game MEDIUM board_solved4 (3, 3) 0) = Ok true.
Proof.
  apply solved_board_is_solvable.
  - split; [done|]. by repeat constructor.
  - simpl. lia.
  - reflexivity.
Defined.

(** X5: from a state satisfying the invariant on which
    [_check_solvability] answers false, no sequence of move attempts ever
    reaches a board that [is_solved] accepts. *)
Theorem unsolvable_never_solved s (ms : list (Z * Z)) :
  Inv s -> _check_solvability s = Ok false ->
  exists s', run s ((fun p => MoveTile p.1 p.2) <$> ms) = Ok s' /\
    is_solved s' = Ok false.
Proof.
  intros HI Hchk.
  destruct (run_moves_parity s ms HI) as (s' & Hrun & HI' & Hsz & Hpar).
  exists s'. split; [done|].
  pose proof (value_range (difficulty s')) as Hv.
  pose proof (inv_size s' HI') as Hs'.
  rewrite check_solvability_spec in Hchk by apply HI. injection Hchk as Hchk.
  rewrite is_solved_spec by (apply HI' || lia).
  destruct (bool_decide _) eqn:E; [|done].
  assert (is_solved s' = Ok true) as Hsolved
    by (rewrite is_solved_spec by (apply HI' || lia); by rewrite E).
  rewrite (is_solved_parity s') in Hpar by (apply HI' || lia || done).
  congruence.
Qed.

Lemma unsolvable_never_solved_witness :
  exists s',
    run (game EASY board_swapped (2, 2) 0)
      ((fun p => MoveTile p.1 p.2) <$> [(2, 1); (1, 1); (1, 2); (2, 2)]) = Ok s' /\
    is_solved s' = Ok false.
Proof.
  exact (unsolvable_never_solved (game EASY board_swapped (2, 2) 0)
           [(2, 1); (1, 1); (1, 2); (2, 2)] Inv_swapped eq_refl).
Defined.

(** X6: with a random source that returns rearrangements, the blank of a
    generated board lies on a cell whose row and column sum to an even
    number; so a freshly generated board is never one move away from the
    solved board (its blank is neither left of nor above the last cell). *)
Theorem generated_blank_on_even_cell s rnd :
  fair rnd -> 2 <= size s ->
  exists s', generate_solvable_puzzle s rnd = Ok s' /\
    grid_get (grid s') (blank_pos s').1 (blank_pos s').2 = Ok 0 /\
    Z.even ((blank_pos s').1 + (blank_pos s').2) = true /\
    blank_pos s' <> (size s - 1, size s - 2) /\
    blank_pos s' <> (size s - 2, size s - 1).
Proof.
  intros Hfair Hn.
  destruct (generate_fair s rnd Hfair Hn)
    as (g1 & g2 & s' & _ & Hsh & Hchk & Hgen & Hg & Hb & Hb0 & Hev).
  exists s'. split; [done|].
  assert (wf (size s) g2) as Hwf2.
  { destruct (generate_spec s rnd Hn) as (s2 & Hgen2 & _ & _ & Hwf & _).
    rewrite Hgen in Hgen2. injection Hgen2 as <-. by rewrite <- Hg. }
  split; [|split].
  - rewrite Hg. by apply (cell_get (size s)).
  - rewrite Zeven_mod, Hev. done.
  - destruct (blank_pos s') as [br bc]. simpl in Hev.
    split; intros [= -> ->];
      replace (size s - 1 + (size s - 2)) with ((size s - 2) * 2 + 1) in Hev by lia;
      replace (size s - 2 + (size s - 1)) with ((size s - 2) * 2 + 1) in Hev by lia;
      rewrite Z.add_comm, Z_mod_plus_full in Hev; done.
Qed.

Lemma generated_blank_on_even_cell_witness :
  exists s', init MEDIUM identity_order = Ok s' /\
    Z.even ((blank_pos s').1 + (blank_pos s').2) = true.
Proof.
  destruct (generated_blank_on_even_cell (blank_game MEDIUM 4) identity_order)
    as (s' & Hgen & _ & Hev & _).
  - by intros i l.
  - simpl. lia.
  - exists s'. split; [exact Hgen|exact Hev].
Defined.

(** ** The blank scan, the repair step and the movable tiles *)

(** X7: on an N x N grid [_find_blank_position] returns the first cell, in
    row-major order, that holds 0; on a grid without a 0 it returns (0, 0),
    a cell that is then not blank; and in a state satisfying the invariant
    it returns the cached [blank_pos]. *)
Theorem find_blank_position_first s :
  wf (size s) (grid s) ->
  exists p, _find_blank_position s = Ok p /\
    (forall q, inb (size s) q -> grid_get (grid s) q.1 q.2 = Ok 0 ->
       inb (size s) p /\ grid_get (grid s) p.1 p.2 = Ok 0 /\
       rank (size s) p <= rank (size s) q) /\
    ((forall q, inb (size s) q -> grid_get (grid s) q.1 q.2 <> Ok 0) ->
       p = (0, 0)) /\
    (Inv s -> p = blank_pos s).
Proof.
  intros Hwf. rewrite find_blank_position_spec by done.
  eexists; split; [done|].
  assert (forall q, inb (size s) q ->
            grid_get (grid s) q.1 q.2 = Ok (cell (grid s) q)) as Hget
    by (intros q Hq; by apply (grid_get_wf (size s))).
  assert (0 <= size s \/ size s < 0) as [Hn|Hn] by lia; cycle 1.
  { split_and!.
    - intros q [Hq _]. lia.
    - intros _. unfold first_blank, positions, range.
      by rewrite !seqZ_nil by lia.
    - intros [_ _ _ [Hb _] _]. lia. }
  destruct (first_blank (size s) (grid s)) as [p|] eqn:E; simpl.
  - destruct (first_blank_first _ _ _ Hn E) as (Hp & Hp0 & Hmin).
    split_and!.
    + intros q Hq Hq0. rewrite Hget in Hq0 by done. injection Hq0 as Hq0.
      split_and!; [done|by rewrite Hget, Hp0|by apply Hmin].
    + intros Hno. destruct (Hno p Hp). by rewrite Hget, Hp0.
    + intros HI. destruct HI as [_ _ Hperm Hb Hb0].
      apply (cell_inj (size s) (grid s)); try done.
      * by apply (perm_NoDup (size s)).
      * rewrite Hp0. rewrite Hget in Hb0 by done. by injection Hb0.
  - pose proof (first_blank_none _ _ E) as Hno. split_and!.
    + intros q Hq Hq0. rewrite Hget in Hq0 by done. injection Hq0 as Hq0.
      by destruct (Hno q Hq).
    + done.
    + intros [_ _ _ Hb Hb0]. rewrite Hget in Hb0 by done.
      injection Hb0 as Hb0. by destruct (Hno _ Hb).
Qed.

Lemma find_blank_position_first_witness :
  wf 3 board_centre /\
  exists p, _find_blank_position (game EASY board_centre (1, 1) 0) = Ok p /\
    (forall q, inb 3 q -> grid_get board_centre q.1 q.2 = Ok 0 ->
       inb 3 p /\ grid_get board_centre p.1 p.2 = Ok 0 /\
       rank 3 p <= rank 3 q) /\
    ((forall q, inb 3 q -> grid_get board_centre q.1 q.2 <> Ok 0) ->
       p = (0, 0)) /\
    (Inv (game EASY board_centre (1, 1) 0) -> p = (1, 1)).
Proof.
  assert (wf 3 board_centre) as Hwf by (by apply wf_3x3).
  split; [done|].
  exact (find_blank_position_first (game EASY board_centre (1, 1) 0) Hwf).
Defined.

(** X8: on an N x N grid [_make_solvable] is its own inverse: applied twice
    it gives back the state it started from; and with fewer than two tiles
    on the board it changes nothing. *)
Theorem make_solvable_involutive s :
  wf (size s) (grid s) ->
  exists s1, _make_solvable s = Ok s1 /\ _make_solvable s1 = Ok s /\
    ((length (flat_puzzle (grid s)) < 2)%nat -> s1 = s).
Proof.
  intros Hwf.
  pose proof (flat_puzzle_cells _ _ Hwf) as Hflat.
  destruct (non_blank (size s) (grid s)) as [|p1 [|p2 rest]] eqn:Hnb.
  - exists s. unfold _make_solvable.
    rewrite collect_non_blank_spec, Hnb by done. done.
  - exists s. unfold _make_solvable.
    rewrite collect_non_blank_spec, Hnb by done. simpl. by destruct p1.
  - destruct (make_solvable_spec s p1 p2 rest Hwf Hnb) as (g' & E & Hwf' & Hc).
    exists (with_grid s g'). split; [done|]. split.
    + assert (non_blank (size s) g' = p1 :: p2 :: rest) as Hnb'.
      { rewrite <- Hnb. unfold non_blank. apply filter_ext_in.
        intros q Hq%elem_of_positions.
        rewrite (repair_zero (size s) (grid s) g' p1 p2 rest Hnb Hc q Hq).
        done. }
      destruct (make_solvable_spec (with_grid s g') p1 p2 rest Hwf' Hnb')
        as (g2 & E2 & Hwf2 & Hc2).
      rewrite E2. f_equal. simpl in *.
      assert (g2 = grid s) as ->; [|by destruct s].
      apply (wf_ext (size s)); [done..|]. intros q Hq.
      rewrite Hc2 by done. rewrite Hc by (by apply transp_inb;
        [apply (repair_p1 (size s) (grid s) p1 p2 rest Hnb)
        |apply (repair_p2 (size s) (grid s) p1 p2 rest Hnb)|]).
      by rewrite transp_invol.
    + rewrite Hflat, length_fmap. simpl. lia.
Qed.

Lemma make_solvable_involutive_witness :
  wf 3 board_swapped /\
  exists s1, _make_solvable (game EASY board_swapped (2, 2) 0) = Ok s1 /\
    _make_solvable s1 = Ok (game EASY board_swapped (2, 2) 0) /\
    ((length (flat_puzzle board_swapped) < 2)%nat ->
     s1 = game EASY board_swapped (2, 2) 0).
Proof.
  assert (wf 3 board_swapped) as Hwf by (by apply wf_3x3).
  split; [done|].
  exact (make_solvable_involutive (game EASY board_swapped (2, 2) 0) Hwf).
Defined.

(** X9: in a state satisfying the invariant, the cells [can_move_tile]
    accepts are exactly the cells of the board next to the blank, so their
    number is 2 when the blank is in a corner, 3 when it is on an edge and
    4 when it is inside the board. *)
Theorem movable_tiles_count s :
  Inv s ->
  (forall p, p ∈ movable_tiles s <->
     inb (size s) p /\ adjacent p (blank_pos s)) /\
  Z.of_nat (length (movable_tiles s))
  = Z.b2z (0 <? (blank_pos s).1) + Z.b2z ((blank_pos s).1 <? size s - 1)
    + Z.b2z (0 <? (blank_pos s).2) + Z.b2z ((blank_pos s).2 <? size s - 1) /\
  (2 <= length (movable_tiles s) <= 4)%nat.
Proof.
  intros [Hsz Hwf Hperm Hb Hb0].
  assert (NoDup (concat (grid s))) as Hnd by (by apply (perm_NoDup (size s))).
  assert (cell (grid s) (blank_pos s) = 0) as H0 by (unfold cell; by rewrite Hb0).
  pose proof (fun p => elem_of_movable_tiles s p Hwf Hnd Hb H0) as Hel.
  assert (movable_tiles s ≡ₚ filter (inb (size s)) (neighbours (blank_pos s)))
    as HP.
  { apply NoDup_Permutation.
    - apply NoDup_filter, NoDup_positions.
    - apply NoDup_filter, NoDup_neighbours.
    - intros p. rewrite Hel, list_elem_of_filter, adjacent_neighbours. done. }
  pose proof (neighbours_on_board _ _ Hb) as Hlen.
  rewrite <- HP in Hlen.
  assert (3 <= size s) as Hn by (rewrite Hsz; by destruct (difficulty s)).
  split; [done|]. split; [done|].
  destruct Hb as [Hb1 Hb2].
  destruct (0 <? (blank_pos s).1) eqn:E1, ((blank_pos s).1 <? size s - 1) eqn:E2,
           (0 <? (blank_pos s).2) eqn:E3, ((blank_pos s).2 <? size s - 1) eqn:E4;
    simpl in Hlen; lia.
Qed.

Lemma movable_tiles_count_witness :
  Inv (game EASY board_centre (1, 1) 0) /\
  (2 <= length (movable_tiles (game EASY board_centre (1, 1)%Z 0%Z)) <= 4)%nat.
Proof.
  split; [apply (Inv_centre 0)|].
  exact (proj2 (proj2 (movable_tiles_count _ (Inv_centre 0)))).
Defined.

(** ** The callbacks of the window *)

(** X10: whatever state the game object is in, a press on the difficulty
    button succeeds, moves to the next difficulty in the cycle
    EASY, MEDIUM, HARD, EXPERT, EASY and leaves a fresh board of the new
    size: the invariant holds, the move counter is 0 and the board is
    solvable. *)
Theorem change_difficulty_cycles s rnd :
  exists s', change_difficulty s rnd = Some (Ok s') /\
    difficulty s' = match difficulty s with
                    | EASY => MEDIUM
                    | MEDIUM => HARD
                    | HARD => EXPERT
                    | EXPERT => EASY
                    end /\
    Inv s' /\ moves (stats s') = 0 /\ _check_solvability s' = Ok true.
Proof.
  unfold change_difficulty.
  set (d' := match difficulty s with
             | EASY => MEDIUM | MEDIUM => HARD | HARD => EXPERT | EXPERT => EASY
             end).
  destruct (generate_inv (with_difficulty s d') rnd)
    as (s' & E & HI & Hd & Hm & Hchk); [done|].
  exists s'. split; [|done].
  by destruct (difficulty s) eqn:Ed; subst d'; vm_compute list_index;
    cbv zeta; rewrite <- E.
Qed.

(** X11: in a state satisfying the invariant a click on a cell never fails;
    the win message is shown exactly when the click is an accepted move and
    the board it leaves is the solved one; on a board that is already
    solved no click shows it. *)
Theorem on_tile_click_win s row col :
  Inv s ->
  exists s' shown, on_tile_click s row col = Ok (s', shown) /\ Inv s' /\
    (shown = true <->
       can_move_tile s row col = Ok true /\
       forall p, inb (size s) p ->
         grid_get (grid s') p.1 p.2 = Ok (target (size s) p)) /\
    (is_solved s = Ok true -> shown = false).
Proof.
  intros HI. pose proof HI as [Hsz Hwf Hperm Hb Hb0].
  assert (3 <= size s) as Hn by (rewrite Hsz; apply value_range).
  destruct (move_tile_inv s row col HI) as (s' & b & Hmv & HI' & _).
  pose proof (can_move_tile_spec s row col Hwf) as Hcan.
  unfold on_tile_click. destruct (bool_decide _) eqn:E.
  - destruct (move_tile_accept s row col Hwf Hb Hcan)
      as (g' & Hmv' & Hwf' & Hc).
    rewrite Hmv in Hmv'. injection Hmv' as -> ->. rewrite Hmv. simpl.
    rewrite is_solved_spec by (simpl; done || lia). simpl.
    eexists _, _. split; [done|]. split; [done|].
    assert (forall p, inb (size s) p ->
              grid_get g' p.1 p.2 = Ok (cell g' p)) as Hget
      by (intros p Hp; by apply (grid_get_wf (size s))).
    split.
    + rewrite bool_decide_eq_true, Forall_forall. split.
      * intros HF. split; [done|]. intros p Hp. rewrite Hget by done.
        f_equal. by apply HF, elem_of_positions.
      * intros [_ HF] p Hp%elem_of_positions.
        specialize (HF p Hp). rewrite Hget in HF by done. by injection HF.
    + intros Hs. rewrite is_solved_spec in Hs by (done || lia).
      injection Hs as Hs. apply bool_decide_eq_true in Hs.
      rewrite Forall_forall in Hs.
      apply bool_decide_eq_false. rewrite Forall_forall. intros HF.
      apply bool_decide_eq_true in E as (Hin & Hnz & Hadj).
      apply (cell_get (size s)) in Hb0; [|done..].
      assert (blank_pos s = (size s - 1, size s - 1)) as Eb.
      { specialize (Hs _ (proj2 (elem_of_positions _ _) Hb)).
        rewrite Hb0 in Hs. unfold target in Hs. case_decide; [done|].
        destruct Hb. nia. }
      specialize (HF _ (proj2 (elem_of_positions _ _) Hin)).
      rewrite Hc in HF by done. rewrite decide_True in HF by done.
      unfold target in HF. case_decide as Ep.
      * rewrite Ep, Eb in Hadj. unfold adjacent in Hadj. simpl in Hadj. lia.
      * destruct Hin as [? ?]. simpl in *. nia.
  - rewrite (move_tile_reject s row col Hcan) in Hmv.
    injection Hmv as <- <-. rewrite (move_tile_reject s row col Hcan). simpl.
    exists s, false. split; [done|]. split; [done|]. split; [|done].
    split; [done|]. intros [Hc _]. rewrite Hcan in Hc. done.
Qed.

Lemma on_tile_click_win_witness :
  Inv (game EASY board_unsolved (2, 1) 0) /\
  exists s' shown,
    on_tile_click (game EASY board_unsolved (2, 1) 0) 2 2 = Ok (s', shown) /\
    Inv s' /\
    (shown = true <->
       can_move_tile (game EASY board_unsolved (2, 1) 0) 2 2 = Ok true /\
       forall p, inb 3 p -> grid_get (grid s') p.1 p.2 = Ok (target 3 p)) /\
    (is_solved (game EASY board_unsolved (2, 1) 0) = Ok true -> shown = false).
Proof.
  pose proof Inv_unsolved as HI.
  split; [done|].
  exact (on_tile_click_win (game EASY board_unsolved (2, 1) 0) 2 2 HI).
Defined.

(** ** The reference functions of the test script *)

(** X12: on an N x N grid whose zeros, if any, all lie in one row, the
    [check_solvability] of the test script and the [_check_solvability] of
    the game class return the same answer. *)
Theorem test_check_solvability_agrees s :
  0 <= size s -> wf (size s) (grid s) ->
  blanks_in_one_row (size s) (grid s) ->
  TestImplementation.check_solvability (grid s) = _check_solvability s.
Proof.
  intros Hn Hwf Hrow. unfold TestImplementation.check_solvability, _check_solvability.
  rewrite (wf_length _ _ Hn Hwf). cbv zeta.
  rewrite count_inversions_spec. simpl.
  destruct (size s mod 2 =? 1); [done|].
  rewrite find_blank_position_spec by done.
  rewrite (last_blank_loop (size s) (grid s) fst)
    by (done || by intros r Hr%elem_of_range).
  simpl. rewrite last_blank_first by done.
  by destruct (first_blank _ _).
Qed.

Lemma test_check_solvability_agrees_witness :
  TestImplementation.check_solvability board_solved4
  = _check_solvability (game MEDIUM board_solved4 (3, 3) 0).
Proof.
  apply (test_check_solvability_agrees (game MEDIUM board_solved4 (3, 3) 0)).
  - simpl. lia.
  - apply Inv_solved4.
  - apply (Inv_blanks_in_one_row _ Inv_solved4).
Defined.

(** X13: on an N x N grid whose only 0 is at the cached blank position,
    the [can_move_tile] of the test script, which looks the blank up by
    scanning the grid, and the [can_move_tile] of the game class return the
    same answer for every row and column. *)
Theorem test_can_move_tile_agrees s row col :
  wf (size s) (grid s) -> inb (size s) (blank_pos s) ->
  (forall q, inb (size s) q ->
     grid_get (grid s) q.1 q.2 = Ok 0 <-> q = blank_pos s) ->
  TestImplementation.can_move_tile (grid s) row col = can_move_tile s row col.
Proof.
  intros Hwf Hb Huniq.
  assert (0 <= size s) as Hn by (destruct Hb; lia).
  assert (forall q, inb (size s) q ->
            cell (grid s) q = 0 <-> q = blank_pos s) as Hu.
  { intros q Hq. rewrite <- (Huniq q Hq).
    rewrite (grid_get_wf (size s)) by done. split; congruence. }
  assert (first_blank (size s) (grid s) = Some (blank_pos s)) as Efb.
  { apply first_blank_unique; [done|by apply Hu|]. intros q Hq. by apply Hu. }
  assert (blanks_in_one_row (size s) (grid s)) as Hrow.
  { intros p q Hp Hq Hp0%Hu Hq0%Hu; congruence. }
  unfold TestImplementation.can_move_tile, can_move_tile.
  rewrite (wf_length _ _ Hn Hwf). cbv zeta.
  destruct (decide (inb (size s) (row, col))) as [Hin|Hout].
  - destruct Hin as [? ?]. simpl in *.
    replace ((row <? 0) || (row >=? size s) || (col <? 0) || (col >=? size s))
      with false by lia.
    replace ((0 <=? row) && (row <? size s) && (0 <=? col) && (col <? size s))
      with true by lia.
    simpl.
    rewrite (grid_get_wf (size s) _ (row, col) Hwf : _ -> grid_get _ row col = _)
      by done.
    simpl. destruct (cell (grid s) (row, col) =? 0); [done|].
    rewrite (last_blank_loop (size s) (grid s) (fun p => p))
      by (done || by intros r Hr%elem_of_range).
    simpl. rewrite last_blank_first, Efb by done. done.
  - unfold inb in Hout. simpl in Hout.
    replace ((row <? 0) || (row >=? size s) || (col <? 0) || (col >=? size s))
      with true by lia.
    replace ((0 <=? row) && (row <? size s) && (0 <=? col) && (col <? size s))
      with false by lia.
    done.
Qed.

Lemma test_can_move_tile_agrees_witness :
  TestImplementation.can_move_tile board_centre 0 1
  = can_move_tile (game EASY board_centre (1, 1) 0) 0 1.
Proof.
  apply (test_can_move_tile_agrees (game EASY board_centre (1, 1) 0)).
  - by apply wf_3x3.
  - unfold inb. simpl. lia.
  - intros q Hq. split.
    + intros H0. apply (cell_inj 3 board_centre).
      * by apply wf_3x3.
      * apply (perm_NoDup 3), (inv_perm _ (Inv_centre 0)).
      * exact Hq.
      * unfold inb. simpl. lia.
      * unfold cell. simpl in H0. by rewrite H0.
    + by intros ->.
Defined.

(** ** The shuffle and the regeneration *)

(** X14: with a random source that returns rearrangements, shuffling a
    board that satisfies the invariant never fails and gives an N x N
    rearrangement of it on which [_check_solvability] answers as it did
    before the shuffle. *)
Theorem shuffle_keeps_solvability s rnd :
  fair rnd -> Inv s ->
  exists g, _shuffle_puzzle s rnd = Ok g /\ wf (size s) g /\
    concat g ≡ₚ concat (grid s) /\
    _check_solvability (with_grid s g) = _check_solvability s.
Proof.
  intros Hfair [Hsz Hwf Hperm Hb Hb0].
  assert (3 <= size s) as Hn by (rewrite Hsz; apply value_range).
  apply (cell_get (size s)) in Hb0; [|done..].
  destruct (shuffle_fair s rnd Hfair) as (g & b & E & Hwf' & HP & Hpar & _);
    [lia|done|by apply (perm_NoDup (size s))|done..|].
  exists g. split_and!; [done..|].
  rewrite !check_solvability_spec by done. simpl. by rewrite Hpar.
Qed.

Lemma shuffle_keeps_solvability_witness :
  exists g,
    _shuffle_puzzle (game EASY board_centre (1, 1) 0) identity_order = Ok g /\
    wf 3 g /\ concat g ≡ₚ concat board_centre /\
    _check_solvability (with_grid (game EASY board_centre (1, 1) 0) g)
    = _check_solvability (game EASY board_centre (1, 1) 0).
Proof.
  apply (shuffle_keeps_solvability (game EASY board_centre (1, 1) 0)
           identity_order).
  - by intros i l.
  - apply (Inv_centre 0).
Defined.

(** X15: [generate_solvable_puzzle] reads nothing of the old board: two
    game objects of the same size and difficulty get the same new state
    from the same random choices, whatever grid, blank position and move
    count they held. *)
Theorem generate_forgets_old_board s1 s2 rnd :
  size s1 = size s2 -> difficulty s1 = difficulty s2 ->
  generate_solvable_puzzle s1 rnd = generate_solvable_puzzle s2 rnd.
Proof.
  destruct s1 as [d1 n1 g1 b1 st1], s2 as [d2 n2 g2 b2 st2]. simpl.
  intros -> ->.
  unfold generate_solvable_puzzle, _check_solvability, _make_solvable,
    _shuffle_puzzle, _find_blank_position, collect_non_blank, bind.
  cbn [size grid blank_pos difficulty stats
       with_grid with_blank_pos with_stats].
  repeat first
    [ reflexivity
    | progress cbn [size grid blank_pos difficulty stats negb
                    with_grid with_blank_pos with_stats]
    | lazymatch goal with
      | |- ?L = _ => let x := head_scrutinee L in destruct x
      end ].
Qed.

Lemma generate_forgets_old_board_witness :
  generate_solvable_puzzle (game EASY board_centre (1, 1) 7) identity_order
  = generate_solvable_puzzle (blank_game EASY 3) identity_order.
Proof.
  by apply (generate_forgets_old_board (game EASY board_centre (1, 1) 7)
              (blank_game EASY 3) identity_order).
Defined.
